(** * mobx-form-state: the [InputGroup] tree of [src/state/InputGroup.ts]

    A shallow embedding of the input-group tree, of its derived views
    ([structure], [inputs], [value], [inputValue], [normalizedInputValue],
    [flattedInputs], [flattenedStructure]) and of the batch operations
    [reset] and [confirm], followed by the properties the specification
    states about them.

    How the program is read here:
    - the observable state of the application is a [World]; a description
      function and the values an input holds are read from it, and the
      operations of an input take a world to the next one or throw;
    - a view is the body of its getter, as a function of the world.  The
      getters are [@computed]: MobX keeps their result until the observable
      state they were computed from changes, which a function of the world
      does not tell apart from computing them anew;
    - next to that, a getter is read as a run: what it asks of its
      collaborators, in order, and the world it returns in;
    - [Input] ([Input.ts]) is a collaborator, given by the class
      [InputOps];
    - [value[key]] finds the properties of the value itself and the
      members it inherits from the built-in prototypes of the environment,
      which the class [Realm] gives;
    - trees are finite: a group whose description leads back to the group
      itself is not a tree of the model. *)

From Stdlib Require Import List String Ascii ZArith Bool Lia PeanoNat.
From Stdlib Require Import DecimalString DecimalNat.
Import ListNotations.

Set Implicit Arguments.
Set Warnings "-register-all".
Local Open Scope string_scope.
Local Open Scope list_scope.

(** ** JavaScript values

    The values an input holds and the value trees handed to [reset] and
    [confirm].  Numbers are the integral ones; an object is the list of its
    own enumerable properties in [for .. in] order, every key once.
    [VObj] is an ordinary object, which inherits from [Object.prototype];
    [VBare] is an object made by [Object.create(null)], which inherits
    nothing; [VFun] is a function of the environment, known by its name. *)

Inductive jsval : Type :=
| VUndefined
| VNull
| VBool (b : bool)
| VNum (n : Z)
| VStr (s : string)
| VArr (items : list jsval)
| VObj (props : list (string * jsval))
| VBare (props : list (string * jsval))
| VFun (name : string).

(** [ToBoolean]: what [value && ...] tests. *)
Definition truthy (v : jsval) : bool :=
  match v with
  | VUndefined | VNull => false
  | VBool b => b
  | VNum n => negb (Z.eqb n 0)
  | VStr s => negb (String.eqb s EmptyString)
  | VArr _ | VObj _ | VBare _ | VFun _ => true
  end.

(** The canonical decimal string of an array index. *)
Definition index_key (i : nat) : string :=
  NilZero.string_of_uint (Nat.to_uint i).

(** First binding of [key] in a property list. *)
Fixpoint assoc {A : Type} (key : string) (props : list (string * A)) : option A :=
  match props with
  | [] => None
  | (k, x) :: rest => if String.eqb k key then Some x else assoc key rest
  end.

(** [result[key] = x] on a property list: an existing key keeps its place,
    a new key goes last. *)
Fixpoint obj_set {A : Type} (key : string) (x : A) (props : list (string * A))
  : list (string * A) :=
  match props with
  | [] => [(key, x)]
  | (k, y) :: rest =>
      if String.eqb k key then (k, x) :: rest else (k, y) :: obj_set key x rest
  end.

(** The index a key denotes in a sequence of [n] elements, if any. *)
Definition key_index (n : nat) (key : string) : option nat :=
  find (fun i => String.eqb (index_key i) key) (seq 0 n).

Definition char_at (s : string) (i : nat) : option jsval :=
  match String.get i s with
  | Some c => Some (VStr (String c EmptyString))
  | None => None
  end.

(** Own property [key] of [v]; [None] when [v] has no such property. *)
Definition own_property (v : jsval) (key : string) : option jsval :=
  match v with
  | VObj props => assoc key props
  | VBare props => assoc key props
  | VArr items =>
      if String.eqb key "length" then Some (VNum (Z.of_nat (List.length items)))
      else match key_index (List.length items) key with
           | Some i => nth_error items i
           | None => None
           end
  | VStr s =>
      if String.eqb key "length" then Some (VNum (Z.of_nat (String.length s)))
      else match key_index (String.length s) key with
           | Some i => char_at s i
           | None => None
           end
  | _ => None
  end.

(** The kinds of value that inherit members from a built-in prototype. *)
Inductive Kind : Type := KObject | KArray | KString | KNumber | KBoolean | KFunction.

Definition kind_of (v : jsval) : option Kind :=
  match v with
  | VObj _ => Some KObject
  | VArr _ => Some KArray
  | VStr _ => Some KString
  | VNum _ => Some KNumber
  | VBool _ => Some KBoolean
  | VFun _ => Some KFunction
  | VBare _ | VUndefined | VNull => None
  end.

(** The built-in prototypes are those of the environment the program runs
    in: [inherited kind name] is the member that a value of that kind finds
    under [name] along its prototype chain, when it has no such property
    of its own ([toString] for an object, [map] for an array).  No
    built-in prototype has a member named as an array index. *)
Class Realm : Type := {
  inherited : Kind -> string -> option jsval;
  inherited_index : forall kind index, inherited kind (index_key index) = None
}.

Definition inherited_property {realm : Realm} (v : jsval) (key : string)
  : option jsval :=
  match kind_of v with
  | Some kind => inherited kind key
  | None => None
  end.

(** [v[key]] for a value [v] that is neither [undefined] nor [null]: the
    own property, else the inherited member, else [undefined]. *)
Definition get_key {realm : Realm} (v : jsval) (key : string) : jsval :=
  match own_property v key with
  | Some x => x
  | None =>
      match inherited_property v key with
      | Some member => member
      | None => VUndefined
      end
  end.

(** [v[index]]. *)
Definition get_index {realm : Realm} (v : jsval) (index : nat) : jsval :=
  get_key v (index_key index).

(** [value && value[key]] and [value && value[index]]. *)
Definition and_key {realm : Realm} (value : jsval) (key : string) : jsval :=
  if truthy value then get_key value key else value.

Definition and_index {realm : Realm} (value : jsval) (index : nat) : jsval :=
  if truthy value then get_index value index else value.

(** An object has each of its keys once. *)
Definition has_key {A : Type} (key : string) (props : list (string * A)) : bool :=
  existsb (fun p => String.eqb (fst p) key) props.

Fixpoint keys_once {A : Type} (props : list (string * A)) : bool :=
  match props with
  | [] => true
  | p :: rest => negb (has_key (fst p) rest) && keys_once rest
  end.

(** The sub-value of a value tree at a key, as the specification words it:
    the value under that key where the tree has the key, no value
    otherwise. *)
Definition sub_value (value : jsval) (key : string) : jsval :=
  match own_property value key with
  | Some x => x
  | None => VUndefined
  end.

(** A value at which [value && value[key]] reads the sub-value at [key]:
    none at all; or a truthy one that has [key] among its own properties,
    or inherits nothing under [key]. *)
Definition descends_at {realm : Realm} (value : jsval) (key : string) : bool :=
  match value with
  | VUndefined => true
  | _ =>
      truthy value
      && match own_property value key, inherited_property value key with
         | None, Some _ => false
         | _, _ => true
         end
  end.

(** ** Inputs and input groups *)

(** An [Input] is known by its identity. *)
Definition Input := nat.
Definition GroupId := nat.

Inductive valueProp : Type := PValue | PInputValue | PNormalizedInputValue.

(** The argument objects [{ value }] that the group hands to an input.
    [confirm] of an input also understands [next]; [None] is a property
    that is not there. *)
Record ResetArgs : Type := { reset_value : jsval }.
Record ConfirmArgs : Type := { confirm_value : jsval; next : option bool }.

Definition next_requested (a : ConfirmArgs) : bool :=
  match next a with
  | Some b => b
  | None => false
  end.

Inductive Call : Type :=
| CallReset (input : Input) (args : ResetArgs)
| CallConfirm (input : Input) (args : ConfirmArgs).

Definition call_input (c : Call) : Input :=
  match c with
  | CallReset i _ => i
  | CallConfirm i _ => i
  end.

Definition call_value (c : Call) : jsval :=
  match c with
  | CallReset _ a => reset_value a
  | CallConfirm _ a => confirm_value a
  end.

Section Group.

(** [World] is the observable state of the application: what the inputs
    hold and whatever else a description function reads. *)
Variable World : Type.
Variable Error : Type.

(** How an operation of an input ends: it returns, or it throws, in either
    case leaving a world behind. *)
Inductive Outcome : Type :=
| Done (w : World)
| Thrown (e : Error) (w : World).

(** The input collaborator ([Input.ts]): its three readable values and its
    two operations. *)
Class InputOps : Type := {
  input_get : valueProp -> Input -> World -> jsval;
  input_reset : Input -> ResetArgs -> World -> Outcome;
  input_confirm : Input -> ConfirmArgs -> World -> Outcome
}.

Context {ops : InputOps}.
Context {realm : Realm}.

(** [MaybeConstant<() => T>]: a value or a function producing one from the
    current state. *)
Inductive MaybeConstant (A : Type) : Type :=
| Constant (a : A)
| Thunk (f : World -> A).

(** [InputGroupContent]; [OfGroup] is an [InputGroup] with its [_inputs]. *)
Inductive InputGroupContent : Type :=
| OfInput (input : Input)
| OfGroup (id : GroupId) (_inputs : MaybeConstant InputGroupContent)
| OfArray (items : list InputGroupContent)
| OfObject (props : list (string * InputGroupContent)).

(** [InputShape]: content without groups. *)
Inductive InputShape : Type :=
| ShInput (input : Input)
| ShArray (items : list InputShape)
| ShObject (props : list (string * InputShape)).

Record InputGroup : Type := {
  group_id : GroupId;
  _inputs : MaybeConstant InputGroupContent
}.

(** [get structure()]. *)
Definition structure (g : InputGroup) (w : World) : InputGroupContent :=
  match _inputs g with
  | Thunk f => f w
  | Constant c => c
  end.

(** [result[key] = f(inputs[key])] for the property [p] of [inputs]. *)
Definition assign {A B : Type} (f : A -> B) (result : list (string * B))
  (p : string * A) : list (string * B) :=
  obj_set (fst p) (f (snd p)) result.

(** [for (let key in inputs) result[key] = f(inputs[key])] on a fresh
    [result]. *)
Definition for_in {A B : Type} (f : A -> B) (props : list (string * A))
  : list (string * B) :=
  fold_left (assign f) props [].

(** [unwrapGroups] on a tree that has no group in it. *)
Fixpoint unwrapShape (inputs : InputShape) : InputShape :=
  match inputs with
  | ShInput i => ShInput i
  | ShArray items => ShArray (map unwrapShape items)
  | ShObject props => ShObject (for_in unwrapShape props)
  end.

(** [unwrapGroups]; a group answers with its [inputs], which is
    [unwrapGroups] of its structure. *)
Fixpoint unwrapGroups (w : World) (inputs : InputGroupContent) : InputShape :=
  match inputs with
  | OfGroup _ d =>
      unwrapShape
        (match d with
         | Thunk f => unwrapGroups w (f w)
         | Constant c => unwrapGroups w c
         end)
  | OfInput i => ShInput i
  | OfArray items => ShArray (map (unwrapGroups w) items)
  | OfObject props => ShObject (for_in (unwrapGroups w) props)
  end.

(** [get inputs()]. *)
Definition inputs (g : InputGroup) (w : World) : InputShape :=
  unwrapGroups w (structure g w).

(** [getValueFromShape]. *)
Fixpoint getValueFromShape (w : World) (inputs : InputShape) (prop : valueProp)
  : jsval :=
  match inputs with
  | ShInput i => input_get prop i w
  | ShArray items => VArr (map (fun input => getValueFromShape w input prop) items)
  | ShObject props =>
      VBare (for_in (fun input => getValueFromShape w input prop) props)
  end.

(** [get value()], [get inputValue()], [get normalizedInputValue()]. *)
Definition value (g : InputGroup) (w : World) : jsval :=
  getValueFromShape w (inputs g w) PValue.

Definition inputValue (g : InputGroup) (w : World) : jsval :=
  getValueFromShape w (inputs g w) PInputValue.

Definition normalizedInputValue (g : InputGroup) (w : World) : jsval :=
  getValueFromShape w (inputs g w) PNormalizedInputValue.

(** [flattenInputs]: the buffer is passed along and returned. *)
Fixpoint flattenInputs (inputs : InputShape) (buffer : list Input) : list Input :=
  match inputs with
  | ShInput i => buffer ++ [i]
  | ShArray items => fold_left (fun buffer x => flattenInputs x buffer) items buffer
  | ShObject props =>
      fold_left (fun buffer p => flattenInputs (snd p) buffer) props buffer
  end.

(** [get flattedInputs()]. *)
Definition flattedInputs (g : InputGroup) (w : World) : list Input :=
  flattenInputs (inputs g w) [].

(** What [flattenStructure] collects: inputs and whole groups. *)
Inductive StructureItem : Type :=
| ItemInput (input : Input)
| ItemGroup (g : InputGroup).

(** [flattenStructure]. *)
Fixpoint flattenStructure (inputs : InputGroupContent)
  (buffer : list StructureItem) : list StructureItem :=
  match inputs with
  | OfGroup id d => buffer ++ [ItemGroup {| group_id := id; _inputs := d |}]
  | OfInput i => buffer ++ [ItemInput i]
  | OfArray items => fold_left (fun buffer x => flattenStructure x buffer) items buffer
  | OfObject props =>
      fold_left (fun buffer p => flattenStructure (snd p) buffer) props buffer
  end.

(** [get flattenedStructure()]. *)
Definition flattenedStructure (g : InputGroup) (w : World) : list StructureItem :=
  flattenStructure (structure g w) [].

(** ** Batch operations

    An [Action] runs on a world; it answers with the calls it made on
    inputs, in order, and with how it ended.  A call that throws ends the
    action there. *)

Definition Action : Type := World -> list Call * Outcome.

Definition skip : Action := fun w => ([], Done w).

Definition and_then (a b : Action) : Action :=
  fun w =>
    match a w with
    | (calls, Done w') => let (calls', o) := b w' in (calls ++ calls', o)
    | (calls, Thrown e w') => (calls, Thrown e w')
    end.

Notation "a ;; b" := (and_then a b) (at level 61, right associativity).

(** What a call does to the world: the input's own operation. *)
Definition input_step (c : Call) (w : World) : Outcome :=
  match c with
  | CallReset i a => input_reset i a w
  | CallConfirm i a => input_confirm i a w
  end.

Definition perform (c : Call) : Action := fun w => ([c], input_step c w).

(** [inputs.map((input, index) => f(input, index))], results dropped. *)
Definition map_indexed {A : Type} (f : A -> nat -> Action) : list A -> nat -> Action :=
  fix go (items : list A) (index : nat) : Action :=
    match items with
    | [] => skip
    | input :: rest => f input index ;; go rest (S index)
    end.

(** [for (let key in inputs) f(inputs[key], key)]. *)
Definition for_in_do {A : Type} (f : A -> string -> Action)
  : list (string * A) -> Action :=
  fix go (props : list (string * A)) : Action :=
    match props with
    | [] => skip
    | p :: rest => f (snd p) (fst p) ;; go rest
    end.

(** [resetShape]. *)
Fixpoint resetShape (inputs : InputGroupContent) (value : jsval) : Action :=
  match inputs with
  | OfInput i => perform (CallReset i {| reset_value := value |})
  | OfGroup _ d =>
      fun w =>
        match d with
        | Thunk f => resetShape (f w) value w
        | Constant c => resetShape c value w
        end
  | OfArray items =>
      map_indexed (fun input index => resetShape input (and_index value index))
        items 0
  | OfObject props =>
      for_in_do (fun input key => resetShape input (and_key value key)) props
  end.

(** [confirmShape]. *)
Fixpoint confirmShape (inputs : InputGroupContent) (value : jsval) : Action :=
  match inputs with
  | OfInput i => perform (CallConfirm i {| confirm_value := value; next := None |})
  | OfGroup _ d =>
      fun w =>
        match d with
        | Thunk f => confirmShape (f w) value w
        | Constant c => confirmShape c value w
        end
  | OfArray items =>
      map_indexed (fun input index => confirmShape input (and_index value index))
        items 0
  | OfObject props =>
      for_in_do (fun input key => confirmShape input (and_key value key)) props
  end.

(** The argument [{ value }] of the group's [reset] and [confirm]; a
    [value] that is not given reads as [undefined]. *)
Record GroupArgs : Type := { args_value : jsval }.

(** [args && args.value]. *)
Definition args_and_value (args : option GroupArgs) : jsval :=
  match args with
  | Some a => args_value a
  | None => VUndefined
  end.

(** [reset(args?)]. *)
Definition reset (g : InputGroup) (args : option GroupArgs) : Action :=
  fun w => resetShape (structure g w) (args_and_value args) w.

(** [confirm(args)]. *)
Definition confirm (g : InputGroup) (args : option GroupArgs) : Action :=
  fun w => confirmShape (structure g w) (args_and_value args) w.

(** ** Vocabulary of the specification *)

(** Objects of a tree have each key once; a group is looked at through
    its structure in world [w]. *)
Fixpoint shape_keys_once (inputs : InputShape) : bool :=
  match inputs with
  | ShInput _ => true
  | ShArray items => forallb shape_keys_once items
  | ShObject props =>
      keys_once props && forallb (fun p => shape_keys_once (snd p)) props
  end.

Fixpoint content_keys_once (w : World) (inputs : InputGroupContent) : bool :=
  match inputs with
  | OfInput _ => true
  | OfGroup _ d =>
      match d with
      | Thunk f => content_keys_once w (f w)
      | Constant c => content_keys_once w c
      end
  | OfArray items => forallb (content_keys_once w) items
  | OfObject props =>
      keys_once props && forallb (fun p => content_keys_once w (snd p)) props
  end.

(** A tree with no group in it, and a tree with no description function
    in it. *)
Fixpoint no_groups (inputs : InputGroupContent) : bool :=
  match inputs with
  | OfInput _ => true
  | OfGroup _ _ => false
  | OfArray items => forallb no_groups items
  | OfObject props => forallb (fun p => no_groups (snd p)) props
  end.

Fixpoint static (inputs : InputGroupContent) : bool :=
  match inputs with
  | OfInput _ => true
  | OfGroup _ d =>
      match d with
      | Thunk _ => false
      | Constant c => static c
      end
  | OfArray items => forallb static items
  | OfObject props => forallb (fun p => static (snd p)) props
  end.

(** A shape read as content. *)
Fixpoint of_shape (inputs : InputShape) : InputGroupContent :=
  match inputs with
  | ShInput i => OfInput i
  | ShArray items => OfArray (map of_shape items)
  | ShObject props => OfObject (map (fun p => (fst p, of_shape (snd p))) props)
  end.

(** The inputs one gets at by unwrapping a tree through arrays, objects
    and groups. *)
Inductive Reachable (w : World) : InputGroupContent -> Input -> Prop :=
| Reach_input : forall i, Reachable w (OfInput i) i
| Reach_constant : forall id c i,
    Reachable w c i -> Reachable w (OfGroup id (Constant c)) i
| Reach_thunk : forall id f i,
    Reachable w (f w) i -> Reachable w (OfGroup id (Thunk f)) i
| Reach_item : forall items x i,
    In x items -> Reachable w x i -> Reachable w (OfArray items) i
| Reach_prop : forall props p i,
    In p props -> Reachable w (snd p) i -> Reachable w (OfObject props) i.

(** A value tree that mirrors a shape: a sequence for a sequence, element
    by element; a mapping for a mapping, key by key; for an input what the
    input holds. *)
Inductive Mirrors (w : World) (prop : valueProp) : InputShape -> jsval -> Prop :=
| Mirrors_input : forall i, Mirrors w prop (ShInput i) (input_get prop i w)
| Mirrors_array : forall items values,
    Forall2 (Mirrors w prop) items values ->
    Mirrors w prop (ShArray items) (VArr values)
| Mirrors_object : forall props values,
    Forall2 (fun p q => fst p = fst q /\ Mirrors w prop (snd p) (snd q))
      props values ->
    Mirrors w prop (ShObject props) (VBare values).

(** Running calls one after the other, each through the input's own
    operation, up to the first that throws. *)
Inductive Executes : World -> list Call -> Outcome -> Prop :=
| Executes_nil : forall w, Executes w [] (Done w)
| Executes_step : forall w c w' calls o,
    input_step c w = Done w' -> Executes w' calls o ->
    Executes w (c :: calls) o
| Executes_throw : forall w c e w',
    input_step c w = Thrown e w' -> Executes w [c] (Thrown e w').

(** An action whose outcome is that of its calls. *)
Definition faithful (a : World -> list Call * Outcome) : Prop :=
  forall w, Executes w (fst (a w)) (snd (a w)).

(** A run that a throwing call ends: if it threw, its last call threw, with
    that error and that world; and a call that throws is the last one and
    gives the run its outcome. *)
Definition StopsAtThrow (w : World) (run : list Call * Outcome) : Prop :=
  (forall e w',
      snd run = Thrown e w' ->
      exists before failing w0,
        fst run = before ++ [failing] /\
        Executes w before (Done w0) /\
        input_step failing w0 = Thrown e w') /\
  (forall before call after w0 e w',
      fst run = before ++ call :: after ->
      Executes w before (Done w0) ->
      input_step call w0 = Thrown e w' ->
      after = [] /\ snd run = Thrown e w').

Definition is_reset (c : Call) : bool :=
  match c with
  | CallReset _ _ => true
  | CallConfirm _ _ => false
  end.

(** A call of [confirm] that does not ask for the next input. *)
Definition confirm_without_next (c : Call) : bool :=
  match c with
  | CallReset _ _ => false
  | CallConfirm _ a => negb (next_requested a)
  end.

(** The lock-step descent of the specification: every input is reset with
    the sub-value of the value tree at its path. *)
Fixpoint lockstep_reset (inputs : InputGroupContent) (value : jsval) : Action :=
  match inputs with
  | OfInput i => perform (CallReset i {| reset_value := value |})
  | OfGroup _ d =>
      fun w =>
        match d with
        | Thunk f => lockstep_reset (f w) value w
        | Constant c => lockstep_reset c value w
        end
  | OfArray items =>
      map_indexed
        (fun input index => lockstep_reset input (sub_value value (index_key index)))
        items 0
  | OfObject props =>
      for_in_do (fun input key => lockstep_reset input (sub_value value key)) props
  end.

(** The value tree descends at every member of the tree: at each index
    of an array and each key of an object of the tree, the value is not
    there, or is truthy and has nothing inherited in the way.  A
    description function is looked at through what it answers in the
    worlds of [asked]. *)
Fixpoint covers (asked : World -> Prop) (inputs : InputGroupContent)
  (value : jsval) : Prop :=
  match inputs with
  | OfInput _ => True
  | OfGroup _ d =>
      match d with
      | Thunk f => forall w, asked w -> covers asked (f w) value
      | Constant c => covers asked c value
      end
  | OfArray items =>
      (fix go (items : list InputGroupContent) (index : nat) : Prop :=
         match items with
         | [] => True
         | input :: rest =>
             descends_at value (index_key index) = true /\
             covers asked input (sub_value value (index_key index)) /\
             go rest (S index)
         end) items 0
  | OfObject props =>
      (fix go (props : list (string * InputGroupContent)) : Prop :=
         match props with
         | [] => True
         | p :: rest =>
             descends_at value (fst p) = true /\
             covers asked (snd p) (sub_value value (fst p)) /\
             go rest
         end) props
  end.

(** The worlds that calls on inputs lead to. *)
Inductive Leads : World -> World -> Prop :=
| Leads_here : forall w, Leads w w
| Leads_call : forall w c w' w'',
    input_step c w = Done w' -> Leads w' w'' -> Leads w w''.

(** A tree whose description functions answer, in every world that calls
    on inputs lead to from [w0], as they do in [w0]. *)
Fixpoint steady (w0 : World) (inputs : InputGroupContent) : Prop :=
  match inputs with
  | OfInput _ => True
  | OfGroup _ d =>
      match d with
      | Thunk f => (forall w, Leads w0 w -> f w = f w0) /\ steady w0 (f w0)
      | Constant c => steady w0 c
      end
  | OfArray items =>
      (fix all (items : list InputGroupContent) : Prop :=
         match items with
         | [] => True
         | input :: rest => steady w0 input /\ all rest
         end) items
  | OfObject props =>
      (fix all (props : list (string * InputGroupContent)) : Prop :=
         match props with
         | [] => True
         | p :: rest => steady w0 (snd p) /\ all rest
         end) props
  end.

(** The descent that [resetShape] and [confirmShape] have in common, the
    call made at an input left open. *)
Fixpoint descend (at_input : Input -> jsval -> Call)
  (inputs : InputGroupContent) (value : jsval) : Action :=
  match inputs with
  | OfInput i => perform (at_input i value)
  | OfGroup _ d =>
      fun w =>
        match d with
        | Thunk f => descend at_input (f w) value w
        | Constant c => descend at_input c value w
        end
  | OfArray items =>
      map_indexed
        (fun input index => descend at_input input (and_index value index))
        items 0
  | OfObject props =>
      for_in_do (fun input key => descend at_input input (and_key value key)) props
  end.

(** A run that went through the inputs [expected], in that order: all of
    them if it returned, the first of them if it threw. *)
Definition Visits (run : list Call * Outcome) (expected : list Input) : Prop :=
  match snd run with
  | Done _ => map call_input (fst run) = expected
  | Thrown _ _ => exists rest, expected = map call_input (fst run) ++ rest
  end.

End Group.

Arguments Done {World Error} w.
Arguments Thrown {World Error} e w.
Arguments Constant {World A} a.
Arguments Thunk {World A} f.
Arguments OfInput {World} input.
Arguments OfGroup {World} id _inputs.
Arguments OfArray {World} items.
Arguments OfObject {World} props.
Arguments ItemInput {World} input.
Arguments ItemGroup {World} g.
Arguments skip {World Error}.

Notation "a ;; b" := (and_then a b) (at level 61, right associativity).

Definition reset_call (i : Input) (v : jsval) : Call :=
  CallReset i {| reset_value := v |}.

Definition confirm_call (i : Input) (v : jsval) : Call :=
  CallConfirm i {| confirm_value := v; next := None |}.
Arguments of_shape {World} inputs.

(** ** A small application to run the definitions on

    Each input holds a confirmed and a typed value.  [reset] and [confirm]
    refuse the value ["!"] by throwing.  The realm has the members of the
    standard built-in prototypes (a selection of them for arrays, strings
    and functions), each a function known by its name. *)

Definition is_digit (c : ascii) : bool :=
  Nat.leb 48 (nat_of_ascii c) && Nat.leb (nat_of_ascii c) 57.

Definition digit_first (s : string) : bool :=
  match s with
  | String c _ => is_digit c
  | EmptyString => false
  end.

Definition named_in (names : list string) (key : string) : bool :=
  existsb (String.eqb key) names.

Lemma index_key_digit_first index : digit_first (index_key index) = true.
Proof.
  unfold index_key. destruct (Nat.to_uint index); reflexivity.
Qed.

Lemma named_in_index names index :
  forallb (fun name => negb (digit_first name)) names = true ->
  named_in names (index_key index) = false.
Proof.
  intros Hnames. unfold named_in.
  destruct (existsb (String.eqb (index_key index)) names) eqn:E; [|reflexivity].
  apply existsb_exists in E. destruct E as [name [Hin Heq]].
  apply String.eqb_eq in Heq. subst name.
  rewrite forallb_forall in Hnames. specialize (Hnames _ Hin).
  rewrite index_key_digit_first in Hnames. discriminate.
Qed.

Module Demo.

Definition object_members : list string :=
  ["constructor"; "hasOwnProperty"; "isPrototypeOf"; "propertyIsEnumerable";
   "toLocaleString"; "toString"; "valueOf"; "__defineGetter__";
   "__defineSetter__"; "__lookupGetter__"; "__lookupSetter__"; "__proto__"].

Definition array_members : list string :=
  ["concat"; "every"; "filter"; "find"; "findIndex"; "forEach"; "includes";
   "indexOf"; "join"; "keys"; "lastIndexOf"; "map"; "pop"; "push"; "reduce";
   "reduceRight"; "reverse"; "shift"; "slice"; "some"; "sort"; "splice";
   "unshift"; "values"].

Definition string_members : list string :=
  ["charAt"; "charCodeAt"; "concat"; "endsWith"; "includes"; "indexOf";
   "lastIndexOf"; "match"; "repeat"; "replace"; "search"; "slice"; "split";
   "startsWith"; "substring"; "toLowerCase"; "toUpperCase"; "trim"].

Definition number_members : list string :=
  ["toExponential"; "toFixed"; "toPrecision"].

Definition function_members : list string := ["apply"; "bind"; "call"].

Definition members_of (kind : Kind) : string * list string :=
  match kind with
  | KObject => ("Object", [])
  | KArray => ("Array", array_members)
  | KString => ("String", string_members)
  | KNumber => ("Number", number_members)
  | KBoolean => ("Boolean", [])
  | KFunction => ("Function", function_members)
  end.

Definition demo_inherited (kind : Kind) (key : string) : option jsval :=
  if named_in (snd (members_of kind)) key
  then Some (VFun (fst (members_of kind) ++ ".prototype." ++ key))
  else if named_in object_members key
       then Some (VFun ("Object.prototype." ++ key))
       else None.

Lemma demo_inherited_index kind index :
  demo_inherited kind (index_key index) = None.
Proof.
  unfold demo_inherited.
  rewrite (named_in_index object_members index) by reflexivity.
  rewrite named_in_index; [reflexivity|]. destruct kind; reflexivity.
Qed.

#[global] Instance demo_realm : Realm :=
  {| inherited := demo_inherited; inherited_index := demo_inherited_index |}.

Record World : Type := {
  confirmed : list (Input * jsval);
  typed : list (Input * jsval)
}.

Definition Error := string.

Fixpoint held (i : Input) (store : list (Input * jsval)) : jsval :=
  match store with
  | [] => VStr EmptyString
  | (j, v) :: rest => if Nat.eqb j i then v else held i rest
  end.

Definition is_undefined (v : jsval) : bool :=
  match v with
  | VUndefined => true
  | _ => false
  end.

Definition refused (v : jsval) : bool :=
  match v with
  | VStr s => String.eqb s "!"
  | _ => false
  end.

Definition demo_get (prop : valueProp) (i : Input) (w : World) : jsval :=
  match prop with
  | PValue => held i (confirmed w)
  | PInputValue | PNormalizedInputValue => held i (typed w)
  end.

Definition demo_reset (i : Input) (a : ResetArgs) (w : World) : Outcome World Error :=
  if refused (reset_value a) then Thrown "refused" w
  else
    let v := if is_undefined (reset_value a) then VStr EmptyString else reset_value a in
    Done {| confirmed := (i, v) :: confirmed w; typed := (i, v) :: typed w |}.

Definition demo_confirm (i : Input) (a : ConfirmArgs) (w : World) : Outcome World Error :=
  if refused (confirm_value a) then Thrown "refused" w
  else
    let v := if is_undefined (confirm_value a) then held i (typed w)
             else confirm_value a in
    Done {| confirmed := (i, v) :: confirmed w; typed := typed w |}.

#[global] Instance demo_ops : InputOps World Error :=
  {| input_get := demo_get; input_reset := demo_reset; input_confirm := demo_confirm |}.

Definition empty : World := {| confirmed := []; typed := [] |}.

(** A world in which input 0 has been confirmed as ["on"]. *)
Definition switched_on : World := {| confirmed := [(0, VStr "on")]; typed := [] |}.

(** The group over [{a: Leaf 1, b: {c: Leaf 2}}]. *)
Definition form : InputGroup World :=
  {| group_id := 1;
     _inputs := Constant (OfObject [("a", OfInput 1);
                                    ("b", OfObject [("c", OfInput 2)])]) |}.

(** A group whose description answers with an array or with an object,
    as input 0 says. *)
Definition reshaped : InputGroup World :=
  {| group_id := 2;
     _inputs := Thunk (fun w =>
       if truthy (held 0 (confirmed w)) then OfArray [OfInput 1]
       else OfObject [("a", OfInput 1)]) |}.

(** A description that answers with two inputs or with one, as input 0
    says, and its group. *)
Definition grow (w : World) : InputGroupContent World :=
  if truthy (held 0 (confirmed w)) then OfArray [OfInput 1; OfInput 2]
  else OfArray [OfInput 1].

Definition growing : InputGroup World :=
  {| group_id := 5; _inputs := Thunk grow |}.

(** Value trees for [form]: a partial one, one with [null] where [form]
    has the object [b], one that input 1 refuses. *)
Definition partial_value : jsval := VObj [("b", VObj [("c", VStr "X")])].
Definition null_at_b : jsval := VObj [("b", VNull)].
Definition refused_at_a : jsval := VObj [("a", VStr "!"); ("b", VObj [("c", VStr "X")])].

(** A group over [{toString: Leaf 1, a: Leaf 2}]. *)
Definition named_like_a_member : InputGroup World :=
  {| group_id := 6;
     _inputs := Constant (OfObject [("toString", OfInput 1); ("a", OfInput 2)]) |}.

(** A group over an array that holds the group [growing]. *)
Definition around : InputGroup World :=
  {| group_id := 7; _inputs := Constant (OfArray [OfGroup 5 (Thunk grow)]) |}.

(** A world in which input 0 is on and inputs 1 and 2 hold ["A"] and
    ["B"]; the value of [around] there, and a partial one. *)
Definition on_and_filled : World :=
  {| confirmed := [(0, VStr "on"); (1, VStr "A"); (2, VStr "B")]; typed := [] |}.

Definition letters : jsval := VArr [VArr [VStr "A"; VStr "B"]].
Definition first_letter : jsval := VArr [VArr [VStr "A"]].

(** A world in which inputs 1 and 2 hold ["A"] and ["B"], and the same
    with input 7 holding something too. *)
Definition filled : World :=
  {| confirmed := [(1, VStr "A"); (2, VStr "B")]; typed := [] |}.

Definition filled_and_more : World :=
  {| confirmed := [(7, VStr "Z"); (1, VStr "A"); (2, VStr "B")]; typed := [] |}.

(** A group with a nested group [H] over two inputs. *)
Definition inner : InputGroup World :=
  {| group_id := 3; _inputs := Constant (OfArray [OfInput 1; OfInput 2]) |}.

Definition outer : InputGroup World :=
  {| group_id := 4;
     _inputs := Constant (OfObject [("h", OfGroup 3 (_inputs inner)); ("x", OfInput 5)]) |}.

End Demo.

(** ** The membership index *)

Module Lookup.

(** Modelled from the spec: the membership index that [createLookup] keeps
    through [privateInputGroup]; [utils/lookup.ts] and [utils/weakProp.ts]
    are not among the sources.  The index answers, for an input, with the
    groups recorded as containing it.  That the index holds the inputs
    weakly is a matter of what the collector may reclaim, and has no
    counterpart here. *)
Definition Index : Type := Input -> list GroupId.

Definition mem (x : nat) (l : list nat) : bool := existsb (Nat.eqb x) l.

Definition add (x : nat) (l : list nat) : list nat :=
  if mem x l then l else x :: l.

Definition delete (x : nat) (l : list nat) : list nat :=
  filter (fun y => negb (Nat.eqb x y)) l.

(** Modelled from the spec: the update for a group [g] and its freshly
    computed flattened inputs.  For each input of that list the group is
    recorded; for each input recorded for the group that is no longer in
    the list the group is removed. *)
Definition recompute (g : GroupId) (flattened : list Input) (index : Index) : Index :=
  fun input =>
    if mem input flattened then add g (index input)
    else delete g (index input).

End Lookup.

(** ** Further vocabulary: structure items, plans, snapshots *)

(** The call made for an entry of a plan. *)
Definition call_of (at_input : Input -> jsval -> Call) (p : Input * jsval) : Call :=
  at_input (fst p) (snd p).

Section Plans.

Variables World Error : Type.
Context {ops : InputOps World Error}.
Context {realm : Realm}.

(** The inputs and groups one gets at by going through arrays and objects,
    not through groups. *)
Inductive Occurs : InputGroupContent World -> StructureItem World -> Prop :=
| Occurs_input : forall i, Occurs (OfInput i) (ItemInput i)
| Occurs_group : forall id d,
    Occurs (OfGroup id d) (ItemGroup {| group_id := id; _inputs := d |})
| Occurs_item : forall items x item,
    In x items -> Occurs x item -> Occurs (OfArray items) item
| Occurs_prop : forall props p item,
    In p props -> Occurs (snd p) item -> Occurs (OfObject props) item.

(** The inputs an item of the structure stands for. *)
Definition expand (w : World) (item : StructureItem World) : list Input :=
  match item with
  | ItemInput i => [i]
  | ItemGroup g => flattedInputs g w
  end.

(** A run that made the calls [expected], in that order: all of them if it
    returned, the first of them if it threw. *)
Definition Performs (run : list Call * Outcome World Error) (expected : list Call)
  : Prop :=
  match snd run with
  | Done _ => fst run = expected
  | Thrown _ _ => exists rest, expected = fst run ++ rest
  end.

(** The inputs of a tree, each with the value that the descent of
    [resetShape] and [confirmShape] hands to it; description functions are
    asked in world [w0]. *)
Fixpoint plan (w0 : World) (inputs : InputGroupContent World) (value : jsval)
  : list (Input * jsval) :=
  match inputs with
  | OfInput i => [(i, value)]
  | OfGroup _ d =>
      match d with
      | Thunk f => plan w0 (f w0) value
      | Constant c => plan w0 c value
      end
  | OfArray items =>
      (fix go (items : list (InputGroupContent World)) (index : nat)
         : list (Input * jsval) :=
         match items with
         | [] => []
         | input :: rest =>
             plan w0 input (and_index value index) ++ go rest (S index)
         end) items 0
  | OfObject props =>
      flat_map (fun p => plan w0 (snd p) (and_key value (fst p))) props
  end.

(** The group as a node of a tree. *)
Definition as_content (g : InputGroup World) : InputGroupContent World :=
  OfGroup (group_id g) (_inputs g).

(** The world an operation leaves behind, however it ended. *)
Definition outcome_world (o : Outcome World Error) : World :=
  match o with
  | Done w => w
  | Thrown _ w => w
  end.

(** What the operations of the inputs are expected to do, for the
    properties that need it: a call that returns has put its value, when
    it has one, into the input as the value [prop]; a call leaves what the
    other inputs hold as it was. *)
Definition Stores (prop : valueProp) (at_input : Input -> jsval -> Call) : Prop :=
  forall i x w w',
    x <> VUndefined ->
    input_step (at_input i x) w = Done w' ->
    input_get prop i w' = x.

Definition KeepsOthers (prop : valueProp) (at_input : Input -> jsval -> Call)
  : Prop :=
  forall i x w j,
    j <> i ->
    input_get prop j (outcome_world (input_step (at_input i x) w))
    = input_get prop j w.

End Plans.

Arguments Occurs {World} _ _.
Arguments Performs {World Error} run expected.
Arguments outcome_world {World Error} o.

(** ** Further vocabulary: the worlds of a batch, getters as runs *)

Section Through.

Variables World Error : Type.
Context {ops : InputOps World Error}.
Context {realm : Realm}.

(** The worlds a batch goes through: the one it starts in and those its
    calls lead to, one call after the other. *)
Definition Reached (w0 : World) (calls : list Call) (w : World) : Prop :=
  exists before after, calls = before ++ after /\ Executes w0 before (Done w).

(** A tree whose description functions answer in every world of [P] as
    they do in [w0]. *)
Fixpoint steady_on (P : World -> Prop) (w0 : World)
  (inputs : InputGroupContent World) : Prop :=
  match inputs with
  | OfInput _ => True
  | OfGroup _ d =>
      match d with
      | Thunk f => (forall w, P w -> f w = f w0) /\ steady_on P w0 (f w0)
      | Constant c => steady_on P w0 c
      end
  | OfArray items =>
      (fix all (items : list (InputGroupContent World)) : Prop :=
         match items with
         | [] => True
         | input :: rest => steady_on P w0 input /\ all rest
         end) items
  | OfObject props =>
      (fix all (props : list (string * InputGroupContent World)) : Prop :=
         match props with
         | [] => True
         | p :: rest => steady_on P w0 (snd p) /\ all rest
         end) props
  end.

(** A tree whose description functions answer the same all through a
    batch that starts in [w0] and makes the calls of [run]. *)
Definition steady_through (run : list Call * Outcome World Error) (w0 : World)
  (inputs : InputGroupContent World) : Prop :=
  steady_on (Reached w0 (fst run)) w0 inputs.

(** What the code of a getter can do to its collaborators: ask a
    description function for its tree, read a value of an input, call an
    operation of an input. *)
Inductive Event : Type :=
| AskDescription (id : GroupId)
| ReadInput (prop : valueProp) (input : Input)
| CallInput (call : Call).

Definition is_call (e : Event) : bool :=
  match e with
  | CallInput _ => true
  | _ => false
  end.

Inductive Ended (A : Type) : Type :=
| Returned (a : A) (w : World)
| Threw (e : Error) (w : World).

Arguments Threw {A} e w.

(** A getter as a run: from a world, the events in order and how it
    ended. *)
Definition Getter (A : Type) : Type := World -> list Event * Ended A.

Definition ret {A : Type} (a : A) : Getter A := fun w => ([], Returned a w).

Definition bind {A B : Type} (m : Getter A) (k : A -> Getter B) : Getter B :=
  fun w =>
    match m w with
    | (events, Returned a w') =>
        let (events', r) := k a w' in (events ++ events', r)
    | (events, Threw e w') => (events, Threw e w')
    end.

(** [_inputs()], [inputs[valueProp]] and a call of [reset] or [confirm] of
    an input. *)
Definition ask (id : GroupId) (f : World -> InputGroupContent World)
  : Getter (InputGroupContent World) :=
  fun w => ([AskDescription id], Returned (f w) w).

Definition read (prop : valueProp) (i : Input) : Getter jsval :=
  fun w => ([ReadInput prop i], Returned (input_get prop i w) w).

Definition call (c : Call) : Getter unit :=
  fun w =>
    ([CallInput c],
     match input_step c w with
     | Done w' => Returned tt w'
     | Thrown e w' => Threw e w'
     end).

(** A batch as a run of the same kind. *)
Definition of_action (a : Action World Error) : Getter unit :=
  fun w =>
    (map CallInput (fst (a w)),
     match snd (a w) with
     | Done w' => Returned tt w'
     | Thrown e w' => Threw e w'
     end).

(** [inputs.map(f)] and [for (let key in inputs) result[key] = f(inputs[key])],
    with [f] a run. *)
Definition map_get {A B : Type} (f : A -> Getter B) : list A -> Getter (list B) :=
  fix go (items : list A) : Getter (list B) :=
    match items with
    | [] => ret []
    | x :: rest =>
        bind (f x) (fun y => bind (go rest) (fun ys => ret (y :: ys)))
    end.

Definition for_in_get {A B : Type} (f : A -> Getter B)
  : list (string * A) -> list (string * B) -> Getter (list (string * B)) :=
  fix go (props : list (string * A)) (result : list (string * B))
    : Getter (list (string * B)) :=
    match props with
    | [] => ret result
    | p :: rest => bind (f (snd p)) (fun y => go rest (obj_set (fst p) y result))
    end.

(** [get structure()] as a run. *)
Definition structure_getter (g : InputGroup World) : Getter (InputGroupContent World) :=
  match _inputs g with
  | Thunk f => ask (group_id g) f
  | Constant c => ret c
  end.

(** [unwrapGroups] as a run; at a group, [inputs.inputs] is the getter of
    that group (its structure, then [unwrapGroups]), and [unwrapGroups] of
    what it answers asks nothing more. *)
Fixpoint unwrapGroups_run (inputs : InputGroupContent World) : Getter InputShape :=
  match inputs with
  | OfGroup id d =>
      bind
        (match d with
         | Thunk f =>
             fun w =>
               let (events, r) := unwrapGroups_run (f w) w in
               (AskDescription id :: events, r)
         | Constant c => unwrapGroups_run c
         end)
        (fun s => ret (unwrapShape s))
  | OfInput i => ret (ShInput i)
  | OfArray items => bind (map_get unwrapGroups_run items) (fun l => ret (ShArray l))
  | OfObject props =>
      bind (for_in_get unwrapGroups_run props []) (fun l => ret (ShObject l))
  end.

(** [getValueFromShape] as a run. *)
Fixpoint getValueFromShape_run (inputs : InputShape) (prop : valueProp)
  : Getter jsval :=
  match inputs with
  | ShInput i => read prop i
  | ShArray items =>
      bind (map_get (fun input => getValueFromShape_run input prop) items)
        (fun l => ret (VArr l))
  | ShObject props =>
      bind (for_in_get (fun input => getValueFromShape_run input prop) props [])
        (fun l => ret (VBare l))
  end.

(** The getters of a group as runs. *)
Definition inputs_getter (g : InputGroup World) : Getter InputShape :=
  bind (structure_getter g) unwrapGroups_run.

Definition value_getter (g : InputGroup World) : Getter jsval :=
  bind (inputs_getter g) (fun s => getValueFromShape_run s PValue).

Definition inputValue_getter (g : InputGroup World) : Getter jsval :=
  bind (inputs_getter g) (fun s => getValueFromShape_run s PInputValue).

Definition normalizedInputValue_getter (g : InputGroup World) : Getter jsval :=
  bind (inputs_getter g) (fun s => getValueFromShape_run s PNormalizedInputValue).

Definition flattedInputs_getter (g : InputGroup World) : Getter (list Input) :=
  bind (inputs_getter g) (fun s => ret (flattenInputs s [])).

Definition flattenedStructure_getter (g : InputGroup World)
  : Getter (list (StructureItem World)) :=
  bind (structure_getter g) (fun c => ret (flattenStructure c [])).

(** A run that only read: it returned [a] in the world [w] it started in,
    and made no call on an input. *)
Definition ReadOnly {A : Type} (run : list Event * Ended A) (w : World) (a : A)
  : Prop :=
  snd run = Returned a w /\ Forall (fun e => is_call e = false) (fst run).

End Through.

Arguments Returned {World Error A} a w.
Arguments Threw {World Error A} e w.
Arguments ret {World Error A} a.
Arguments ask {World Error} id f.
Arguments structure_getter {World Error} g.
Arguments unwrapGroups_run {World Error} inputs.
Arguments inputs_getter {World Error} g.
Arguments flattedInputs_getter {World Error} g.
Arguments flattenedStructure_getter {World Error} g.

(** * Properties *)

(** ** Property lists *)

Section PropertyLists.

Variable A : Type.
Implicit Types (props acc : list (string * A)) (key : string).

Lemma has_key_app key props acc :
  has_key key (props ++ acc) = has_key key props || has_key key acc.
Proof. unfold has_key. apply existsb_app. Qed.

Lemma has_key_false_In key props :
  has_key key props = false -> forall p, In p props -> String.eqb (fst p) key = false.
Proof.
  unfold has_key. intros H p Hp.
  destruct (String.eqb (fst p) key) eqn:E; [|reflexivity].
  assert (existsb (fun q => String.eqb (fst q) key) props = true) as H'.
  { apply existsb_exists. exists p. split; assumption. }
  congruence.
Qed.

Lemma obj_set_fresh key (x : A) props :
  has_key key props = false -> obj_set key x props = props ++ [(key, x)].
Proof.
  induction props as [|[k y] rest IH]; simpl; intros H; [reflexivity|].
  apply orb_false_iff in H. destruct H as [Hk Hrest].
  simpl in Hk. rewrite Hk. f_equal. apply IH. exact Hrest.
Qed.

Lemma has_key_obj_set key k (x : A) props :
  has_key key (obj_set k x props) = String.eqb k key || has_key key props.
Proof.
  induction props as [|[k' y] rest IH]; simpl.
  - reflexivity.
  - destruct (String.eqb k' k) eqn:E; simpl.
    + apply String.eqb_eq in E. subst k'.
      destruct (String.eqb k key); reflexivity.
    + rewrite IH. destruct (String.eqb k' key), (String.eqb k key); reflexivity.
Qed.

Lemma keys_once_obj_set key (x : A) props :
  keys_once props = true -> keys_once (obj_set key x props) = true.
Proof.
  induction props as [|[k y] rest IH]; simpl; intros H.
  - reflexivity.
  - apply andb_true_iff in H. destruct H as [Hk Hrest].
    destruct (String.eqb k key) eqn:E; simpl.
    + rewrite Hk, Hrest. reflexivity.
    + rewrite has_key_obj_set, String.eqb_sym, E. simpl.
      rewrite Hk. simpl. apply IH. exact Hrest.
Qed.

Lemma obj_set_In key (x : A) props p :
  In p (obj_set key x props) -> p = (key, x) \/ In p props.
Proof.
  induction props as [|[k y] rest IH]; simpl.
  - intros [H|[]]. left. symmetry. exact H.
  - destruct (String.eqb k key) eqn:E; simpl.
    + apply String.eqb_eq in E. subst k.
      intros [H|H]; [left; symmetry; exact H | right; right; exact H].
    + intros [H|H]; [right; left; exact H|].
      destruct (IH H) as [H'|H']; [left; exact H' | right; right; exact H'].
Qed.

End PropertyLists.

Section Assignment.

Variables A B : Type.
Variable f : A -> B.
Implicit Types (props : list (string * A)).

Lemma fold_assign_keys_once props (result : list (string * B)) :
  keys_once result = true -> keys_once (fold_left (assign f) props result) = true.
Proof.
  revert result. induction props as [|p rest IH]; simpl; intros result H.
  - exact H.
  - apply IH. unfold assign. apply keys_once_obj_set. exact H.
Qed.

Lemma fold_assign_fresh props (result : list (string * B)) :
  keys_once props = true ->
  (forall p, In p props -> has_key (fst p) result = false) ->
  fold_left (assign f) props result = result ++ map (fun p => (fst p, f (snd p))) props.
Proof.
  revert result. induction props as [|p rest IH]; simpl; intros result Honce Hfresh.
  - symmetry. apply app_nil_r.
  - apply andb_true_iff in Honce. destruct Honce as [Hp Hrest].
    apply negb_true_iff in Hp.
    change (assign f result p) with (obj_set (fst p) (f (snd p)) result).
    rewrite obj_set_fresh by (apply Hfresh; left; reflexivity).
    rewrite IH.
    + rewrite <- app_assoc. reflexivity.
    + exact Hrest.
    + intros q Hq. unfold has_key. rewrite existsb_app. simpl.
      fold (has_key (fst q) result). rewrite (Hfresh q) by (right; exact Hq).
      rewrite orb_false_r. simpl. rewrite String.eqb_sym.
      apply (has_key_false_In _ _ Hp q Hq).
Qed.

Lemma fold_assign_In props (result : list (string * B)) q :
  In q (fold_left (assign f) props result) ->
  In q result \/ exists p, In p props /\ q = (fst p, f (snd p)).
Proof.
  revert result. induction props as [|p rest IH]; simpl; intros result H.
  - left. exact H.
  - destruct (IH _ H) as [Hq|[p' [Hp' Hq]]].
    + unfold assign in Hq. apply obj_set_In in Hq. destruct Hq as [Hq|Hq].
      * right. exists p. split; [left; reflexivity | exact Hq].
      * left. exact Hq.
    + right. exists p'. split; [right; exact Hp' | exact Hq].
Qed.

Lemma for_in_keys_once props : keys_once (for_in f props) = true.
Proof. apply fold_assign_keys_once. reflexivity. Qed.

Lemma for_in_unique props :
  keys_once props = true ->
  for_in f props = map (fun p => (fst p, f (snd p))) props.
Proof.
  intros H. unfold for_in.
  rewrite fold_assign_fresh; [reflexivity | exact H | reflexivity].
Qed.

Lemma for_in_In props q :
  In q (for_in f props) -> exists p, In p props /\ q = (fst p, f (snd p)).
Proof.
  intros H. destruct (fold_assign_In props [] q H) as [[]|H']. exact H'.
Qed.

End Assignment.

(** ** Buffers *)

Lemma fold_left_buffer (X Y : Type) (F : X -> list Y -> list Y) (items : list X) :
  Forall (fun x => forall b, F x b = b ++ F x []) items ->
  forall buffer,
    fold_left (fun b x => F x b) items buffer
    = buffer ++ flat_map (fun x => F x []) items.
Proof.
  induction 1 as [|x rest Hx _ IH]; intros buffer; simpl.
  - symmetry. apply app_nil_r.
  - rewrite IH, Hx, app_assoc. reflexivity.
Qed.

(** ** Trees *)

Section Trees.

Variables World Error : Type.
Context {ops : InputOps World Error}.
Context {realm : Realm}.

Implicit Types (w : World) (c : InputGroupContent World) (s : InputShape)
  (g : InputGroup World) (i : Input) (v : jsval).

Lemma shape_induction (P : InputShape -> Prop) :
  (forall i, P (ShInput i)) ->
  (forall items, Forall P items -> P (ShArray items)) ->
  (forall props, Forall (fun p => P (snd p)) props -> P (ShObject props)) ->
  forall s, P s.
Proof.
  intros Hinput Harray Hobject. fix IH 1. intros [i|items|props].
  - apply Hinput.
  - apply Harray. induction items as [|x rest IHrest]; constructor.
    + apply IH.
    + exact IHrest.
  - apply Hobject. induction props as [|p rest IHrest]; constructor.
    + apply IH.
    + exact IHrest.
Qed.

Lemma content_induction (P : InputGroupContent World -> Prop) :
  (forall i, P (OfInput i)) ->
  (forall id c, P c -> P (OfGroup id (Constant c))) ->
  (forall id f, (forall w, P (f w)) -> P (OfGroup id (Thunk f))) ->
  (forall items, Forall P items -> P (OfArray items)) ->
  (forall props, Forall (fun p => P (snd p)) props -> P (OfObject props)) ->
  forall c, P c.
Proof.
  intros Hinput Hconstant Hthunk Harray Hobject. fix IH 1.
  intros [i|id [c|f]|items|props].
  - apply Hinput.
  - apply Hconstant. apply IH.
  - apply Hthunk. intros w. apply IH.
  - apply Harray. induction items as [|x rest IHrest]; constructor.
    + apply IH.
    + exact IHrest.
  - apply Hobject. induction props as [|p rest IHrest]; constructor.
    + apply IH.
    + exact IHrest.
Qed.

(** *** Collapsing *)

Lemma unwrapShape_id s : shape_keys_once s = true -> unwrapShape s = s.
Proof.
  induction s as [i|items IH|props IH] using shape_induction; simpl; intros H.
  - reflexivity.
  - f_equal. rewrite <- (map_id items) at 2. apply map_ext_in.
    intros x Hx. rewrite Forall_forall in IH. apply IH; [exact Hx|].
    rewrite forallb_forall in H. apply H. exact Hx.
  - apply andb_true_iff in H. destruct H as [Honce Hall].
    f_equal. rewrite for_in_unique by exact Honce.
    rewrite <- (map_id props) at 2. apply map_ext_in.
    intros [k x] Hx. simpl. f_equal.
    rewrite Forall_forall in IH. apply (IH (k, x) Hx).
    rewrite forallb_forall in Hall. apply (Hall (k, x) Hx).
Qed.

Lemma unwrapGroups_keys_once w c : shape_keys_once (unwrapGroups w c) = true.
Proof.
  induction c as [i|id c IH|id f IH|items IH|props IH] using content_induction;
    simpl.
  - reflexivity.
  - rewrite unwrapShape_id; exact IH.
  - rewrite unwrapShape_id; apply IH.
  - apply forallb_forall. intros s Hs. apply in_map_iff in Hs.
    destruct Hs as [x [<- Hx]]. rewrite Forall_forall in IH. apply IH. exact Hx.
  - rewrite for_in_keys_once. simpl. apply forallb_forall. intros q Hq.
    apply for_in_In in Hq. destruct Hq as [p [Hp ->]]. simpl.
    rewrite Forall_forall in IH. apply IH. exact Hp.
Qed.

Lemma unwrapGroups_group w id d :
  unwrapGroups w (OfGroup id d)
  = inputs {| group_id := id; _inputs := d |} w.
Proof.
  unfold inputs, structure. simpl.
  destruct d as [c|f]; apply unwrapShape_id; apply unwrapGroups_keys_once.
Qed.

Lemma inputs_keys_once g w : shape_keys_once (inputs g w) = true.
Proof. apply unwrapGroups_keys_once. Qed.

(** *** Flattening *)

Lemma flattenInputs_buffer s :
  forall buffer, flattenInputs s buffer = buffer ++ flattenInputs s [].
Proof.
  induction s as [i|items IH|props IH] using shape_induction; intros buffer; simpl.
  - reflexivity.
  - rewrite (fold_left_buffer flattenInputs IH buffer).
    rewrite (fold_left_buffer flattenInputs IH []). reflexivity.
  - rewrite (fold_left_buffer (fun p b => flattenInputs (snd p) b) IH buffer).
    rewrite (fold_left_buffer (fun p b => flattenInputs (snd p) b) IH []).
    reflexivity.
Qed.

Lemma flattenInputs_array items :
  flattenInputs (ShArray items) [] = flat_map (fun x => flattenInputs x []) items.
Proof.
  simpl. rewrite (fold_left_buffer flattenInputs); [reflexivity|].
  apply Forall_forall. intros x _. apply flattenInputs_buffer.
Qed.

Lemma flattenInputs_object props :
  flattenInputs (ShObject props) []
  = flat_map (fun p => flattenInputs (snd p) []) props.
Proof.
  simpl. rewrite (fold_left_buffer (fun p b => flattenInputs (snd p) b));
    [reflexivity|].
  apply Forall_forall. intros x _. apply flattenInputs_buffer.
Qed.

Lemma flatten_reachable w c :
  content_keys_once w c = true ->
  forall i, In i (flattenInputs (unwrapGroups w c) []) <-> Reachable w c i.
Proof.
  induction c as [j|id c IH|id f IH|items IH|props IH] using content_induction;
    intros Hkeys i.
  - simpl. split.
    + intros [<-|[]]. constructor.
    + intros H. inversion H. left. reflexivity.
  - simpl in *. rewrite unwrapShape_id by apply unwrapGroups_keys_once.
    rewrite (IH Hkeys). split.
    + intros H. constructor. exact H.
    + intros H. inversion H. assumption.
  - simpl in *. rewrite unwrapShape_id by apply unwrapGroups_keys_once.
    rewrite (IH w Hkeys). split.
    + intros H. constructor. exact H.
    + intros H. inversion H. assumption.
  - cbn [unwrapGroups]. rewrite flattenInputs_array, in_flat_map.
    simpl in Hkeys. rewrite forallb_forall in Hkeys. rewrite Forall_forall in IH.
    split.
    + intros [s [Hs Hi]]. apply in_map_iff in Hs. destruct Hs as [x [<- Hx]].
      apply Reach_item with x; [exact Hx|]. apply IH; auto.
    + intros H. inversion H as [| | |items' x i' Hx Hr|]; subst.
      exists (unwrapGroups w x). split; [apply in_map; exact Hx|].
      apply IH; auto.
  - cbn [unwrapGroups]. simpl in Hkeys. apply andb_true_iff in Hkeys.
    destruct Hkeys as [Honce Hkeys].
    rewrite for_in_unique by exact Honce.
    rewrite flattenInputs_object, in_flat_map.
    rewrite forallb_forall in Hkeys. rewrite Forall_forall in IH.
    split.
    + intros [q [Hq Hi]]. apply in_map_iff in Hq. destruct Hq as [p [<- Hp]].
      simpl in Hi. apply Reach_prop with p; [exact Hp|]. apply IH; auto.
    + intros H. inversion H as [| | | |props' p i' Hp Hr]; subst.
      exists (fst p, unwrapGroups w (snd p)). split.
      * apply (in_map (fun p => (fst p, unwrapGroups w (snd p)))). exact Hp.
      * simpl. apply IH; auto.
Qed.

End Trees.

(** ** Batches *)

Section Batches.

Variables World Error : Type.
Context {ops : InputOps World Error}.
Context {realm : Realm}.

Implicit Types (w : World) (c : InputGroupContent World) (g : InputGroup World)
  (i : Input) (v : jsval) (a b : Action World Error).

Lemma and_then_ext a a' b b' :
  (forall w, a w = a' w) -> (forall w, b w = b' w) ->
  forall w, (a ;; b) w = (a' ;; b') w.
Proof.
  intros Ha Hb w. unfold and_then. rewrite Ha.
  destruct (a' w) as [calls [w'|e w']]; [rewrite Hb|]; reflexivity.
Qed.

Lemma map_indexed_ext (A : Type) (f f' : A -> nat -> Action World Error) items :
  Forall (fun x => forall index w, f x index w = f' x index w) items ->
  forall index w, map_indexed f items index w = map_indexed f' items index w.
Proof.
  induction 1 as [|x rest Hx _ IH]; intros index w; simpl.
  - reflexivity.
  - apply and_then_ext; [apply Hx | apply IH].
Qed.

Lemma for_in_do_ext (A : Type) (f f' : A -> string -> Action World Error) props :
  Forall (fun p => forall w, f (snd p) (fst p) w = f' (snd p) (fst p) w) props ->
  forall w, for_in_do f props w = for_in_do f' props w.
Proof.
  induction 1 as [|p rest Hp _ IH]; intros w; simpl.
  - reflexivity.
  - apply and_then_ext; [apply Hp | apply IH].
Qed.

(** [resetShape] and [confirmShape] are the one descent, with the call of
    [reset] and of [confirm]. *)
Lemma resetShape_descend c : forall v w, resetShape c v w = descend reset_call c v w.
Proof.
  induction c as [i|id c IH|id f IH|items IH|props IH] using content_induction;
    intros v w; simpl.
  - reflexivity.
  - apply IH.
  - apply IH.
  - apply map_indexed_ext. apply Forall_impl with (2 := IH).
    intros x Hx index w'. apply Hx.
  - apply for_in_do_ext. apply Forall_impl with (2 := IH).
    intros p Hp w'. apply Hp.
Qed.

Lemma confirmShape_descend c :
  forall v w, confirmShape c v w = descend confirm_call c v w.
Proof.
  induction c as [i|id c IH|id f IH|items IH|props IH] using content_induction;
    intros v w; simpl.
  - reflexivity.
  - apply IH.
  - apply IH.
  - apply map_indexed_ext. apply Forall_impl with (2 := IH).
    intros x Hx index w'. apply Hx.
  - apply for_in_do_ext. apply Forall_impl with (2 := IH).
    intros p Hp w'. apply Hp.
Qed.

(** *** What holds of every call of a batch *)

Section Calls.

Variable P : Call -> Prop.

Lemma and_then_Forall a b w :
  Forall P (fst (a w)) -> (forall w', Forall P (fst (b w'))) ->
  Forall P (fst ((a ;; b) w)).
Proof.
  unfold and_then. destruct (a w) as [calls [w'|e w']]; simpl; intros Ha Hb.
  - specialize (Hb w'). destruct (b w') as [calls' o]. simpl in *.
    apply Forall_app. split; assumption.
  - exact Ha.
Qed.

Lemma map_indexed_Forall (A : Type) (f : A -> nat -> Action World Error) items :
  Forall (fun x => forall index w, Forall P (fst (f x index w))) items ->
  forall index w, Forall P (fst (map_indexed f items index w)).
Proof.
  induction 1 as [|x rest Hx _ IH]; intros index w; simpl.
  - constructor.
  - apply and_then_Forall; [apply Hx | intros w'; apply IH].
Qed.

Lemma for_in_do_Forall (A : Type) (f : A -> string -> Action World Error) props :
  Forall (fun p => forall w, Forall P (fst (f (snd p) (fst p) w))) props ->
  forall w, Forall P (fst (for_in_do f props w)).
Proof.
  induction 1 as [|p rest Hp _ IH]; intros w; simpl.
  - constructor.
  - apply and_then_Forall; [apply Hp | intros w'; apply IH].
Qed.

(** Values [Q] that the descent keeps to, calls [P] made with them. *)
Variable Q : jsval -> Prop.
Variable at_input : Input -> jsval -> Call.
Hypothesis Q_key : forall v key, Q v -> Q (and_key v key).
Hypothesis Q_index : forall v index, Q v -> Q (and_index v index).
Hypothesis Q_call : forall i v, Q v -> P (at_input i v).

Lemma descend_Forall c : forall v w, Q v -> Forall P (fst (descend at_input c v w)).
Proof.
  induction c as [i|id c IH|id f IH|items IH|props IH] using content_induction;
    intros v w Hv; simpl.
  - constructor; [apply Q_call; exact Hv | constructor].
  - apply IH. exact Hv.
  - apply IH. exact Hv.
  - apply map_indexed_Forall. apply Forall_impl with (2 := IH).
    intros x Hx index w'. apply Hx. apply Q_index. exact Hv.
  - apply for_in_do_Forall. apply Forall_impl with (2 := IH).
    intros p Hp w'. apply Hp. apply Q_key. exact Hv.
Qed.

End Calls.

(** *** A batch is the inputs' own operations, one after the other *)

Lemma Executes_app w calls w' calls' o :
  Executes w calls (Done w') -> Executes w' calls' o ->
  Executes w (calls ++ calls') o.
Proof.
  intros H. remember (Done w') as o' eqn:Eo. revert Eo.
  induction H as [w0|w0 c0 w1 cs o0 Hstep Hrest IH|w0 c0 e0 w1 Hstep];
    intros Eo H'.
  - injection Eo as ->. exact H'.
  - simpl. apply Executes_step with w1; [exact Hstep|]. apply IH; assumption.
  - discriminate.
Qed.

Lemma faithful_skip : faithful skip.
Proof. intros w. constructor. Qed.

Lemma faithful_perform call : faithful (perform call).
Proof.
  intros w. unfold perform. simpl.
  destruct (input_step call w) as [w'|e w'] eqn:E.
  - apply Executes_step with w'; [exact E | constructor].
  - apply Executes_throw. exact E.
Qed.

Lemma faithful_and_then a b : faithful a -> faithful b -> faithful (a ;; b).
Proof.
  intros Ha Hb w. unfold and_then. specialize (Ha w).
  destruct (a w) as [calls [w'|e w']]; simpl in *.
  - specialize (Hb w'). destruct (b w') as [calls' o]. simpl in *.
    apply Executes_app with w'; assumption.
  - exact Ha.
Qed.

Lemma faithful_map_indexed (A : Type) (f : A -> nat -> Action World Error) items :
  Forall (fun x => forall index, faithful (f x index)) items ->
  forall index, faithful (map_indexed f items index).
Proof.
  induction 1 as [|x rest Hx _ IH]; intros index; simpl.
  - apply faithful_skip.
  - apply faithful_and_then; [apply Hx | apply IH].
Qed.

Lemma faithful_for_in_do (A : Type) (f : A -> string -> Action World Error) props :
  Forall (fun p => faithful (f (snd p) (fst p))) props ->
  faithful (for_in_do f props).
Proof.
  induction 1 as [|p rest Hp _ IH]; simpl.
  - apply faithful_skip.
  - apply faithful_and_then; [apply Hp | apply IH].
Qed.

Lemma faithful_descend at_input c : forall v, faithful (descend at_input c v).
Proof.
  induction c as [i|id c IH|id f IH|items IH|props IH] using content_induction;
    intros v; simpl.
  - apply faithful_perform.
  - intros w. apply IH.
  - intros w. apply IH.
  - apply faithful_map_indexed. apply Forall_impl with (2 := IH).
    intros x Hx index. apply Hx.
  - apply faithful_for_in_do. apply Forall_impl with (2 := IH).
    intros p Hp. apply Hp.
Qed.

(** A batch that threw: its last call is the one that threw, and the error
    and the world are those of that call. *)
Lemma Executes_thrown w calls e w' :
  Executes w calls (Thrown e w') ->
  exists before failing w0,
    calls = before ++ [failing] /\
    Executes w before (Done w0) /\
    input_step failing w0 = Thrown e w'.
Proof.
  intros H. remember (Thrown e w') as o eqn:Eo. revert Eo.
  induction H as [w0|w0 c0 w1 cs o0 Hstep Hrest IH|w0 c0 e0 w1 Hstep]; intros Eo.
  - discriminate.
  - destruct (IH Eo) as [before [failing [wm [-> [Hbefore Hfail]]]]].
    exists (c0 :: before), failing, wm. repeat split.
    + apply Executes_step with w1; assumption.
    + exact Hfail.
  - injection Eo as -> ->. exists [], c0, w0. repeat split.
    + constructor.
    + exact Hstep.
Qed.

(** A batch that returned: every call returned. *)
Lemma Executes_done w calls w' :
  Executes w calls (Done w') ->
  forall before call after, calls = before ++ call :: after ->
  exists w0 w1, Executes w before (Done w0) /\ input_step call w0 = Done w1.
Proof.
  intros H. remember (Done w') as o eqn:Eo. revert Eo.
  induction H as [w0|w0 c0 w1 cs o0 Hstep Hrest IH|w0 c0 e0 w1 Hstep];
    intros Eo before call after Hsplit.
  - destruct before; discriminate.
  - destruct before as [|c1 before]; simpl in Hsplit.
    + injection Hsplit as <- <-. exists w0, w1. split; [constructor | exact Hstep].
    + injection Hsplit as <- ->.
      destruct (IH Eo before call after eq_refl) as [wa [wb [Hbefore Hcall]]].
      exists wa, wb. split; [|exact Hcall].
      apply Executes_step with w1; assumption.
  - discriminate.
Qed.

End Batches.

(** ** The inputs a batch goes through *)

Lemma flat_map_map (X Y Z : Type) (f : Y -> list Z) (h : X -> Y) (l : list X) :
  flat_map f (map h l) = flat_map (fun x => f (h x)) l.
Proof.
  induction l as [|x rest IH]; simpl; [reflexivity | rewrite IH; reflexivity].
Qed.

Section Visited.

Variables World Error : Type.
Context {ops : InputOps World Error}.
Context {realm : Realm}.

Implicit Types (w : World) (c : InputGroupContent World) (g : InputGroup World)
  (i : Input) (v : jsval) (a b : Action World Error).

Lemma flatten_unwrap_array w items :
  flattenInputs (unwrapGroups w (OfArray items)) []
  = flat_map (fun x => flattenInputs (unwrapGroups w x) []) items.
Proof.
  cbn [unwrapGroups]. rewrite flattenInputs_array. apply flat_map_map.
Qed.

Lemma flatten_unwrap_object w props :
  keys_once props = true ->
  flattenInputs (unwrapGroups w (OfObject props)) []
  = flat_map (fun p => flattenInputs (unwrapGroups w (snd p)) []) props.
Proof.
  intros H. cbn [unwrapGroups]. rewrite for_in_unique by exact H.
  rewrite flattenInputs_object.
  rewrite (flat_map_map (fun p => flattenInputs (snd p) [])
             (fun p => (fst p, unwrapGroups w (snd p)))).
  reflexivity.
Qed.

Lemma Visits_skip w : Visits (skip (Error := Error) w) [].
Proof. reflexivity. Qed.

Lemma Visits_perform call w : Visits (perform call w) [call_input call].
Proof.
  unfold Visits, perform. simpl. destruct (input_step call w); simpl.
  - reflexivity.
  - exists []. reflexivity.
Qed.

Lemma Leads_trans w1 w2 w3 : Leads w1 w2 -> Leads w2 w3 -> Leads w1 w3.
Proof.
  induction 1 as [w|w c w' w'' Hstep _ IH]; intros H.
  - exact H.
  - apply Leads_call with c w'; [exact Hstep | apply IH; exact H].
Qed.

Lemma Executes_Leads w calls o :
  Executes w calls o -> forall w', o = Done w' -> Leads w w'.
Proof.
  induction 1 as [w|w c w1 calls o Hstep _ IH|w c e w1 Hstep]; intros w' Ho.
  - injection Ho as <-. constructor.
  - apply Leads_call with c w1; [exact Hstep | apply IH; exact Ho].
  - discriminate.
Qed.

Lemma Visits_and_then a b w first second :
  faithful a ->
  Visits (a w) first -> (forall w', Leads w w' -> Visits (b w') second) ->
  Visits ((a ;; b) w) (first ++ second).
Proof.
  intros Ha. specialize (Ha w). revert Ha.
  unfold Visits, and_then. destruct (a w) as [calls [w'|e w']]; simpl.
  - intros Hrun <- Hb.
    specialize (Hb w' (Executes_Leads Hrun eq_refl)).
    destruct (b w') as [calls' [w2|e2 w2]]; simpl in *.
    + rewrite map_app, Hb. reflexivity.
    + destruct Hb as [rest ->]. exists rest. rewrite map_app, app_assoc.
      reflexivity.
  - intros _ [rest ->] _. exists (rest ++ second). rewrite app_assoc.
    reflexivity.
Qed.

Lemma Visits_map_indexed (A : Type) (f : A -> nat -> Action World Error)
  (expected : A -> list Input) w0 items :
  Forall (fun x => forall index, faithful (f x index)) items ->
  Forall (fun x => forall index w, Leads w0 w -> Visits (f x index w) (expected x))
    items ->
  forall index w,
    Leads w0 w -> Visits (map_indexed f items index w) (flat_map expected items).
Proof.
  intros Hfaithful. induction 1 as [|x rest Hx _ IH]; intros index w Hw; simpl.
  - apply Visits_skip.
  - inversion Hfaithful as [|x' rest' Hfx Hfrest]; subst.
    apply Visits_and_then.
    + apply Hfx.
    + apply Hx. exact Hw.
    + intros w' Hw'. apply IH; [exact Hfrest|]. apply Leads_trans with w; assumption.
Qed.

Lemma Visits_for_in_do (A : Type) (f : A -> string -> Action World Error)
  (expected : string * A -> list Input) w0 props :
  Forall (fun p => faithful (f (snd p) (fst p))) props ->
  Forall (fun p => forall w, Leads w0 w -> Visits (f (snd p) (fst p) w) (expected p))
    props ->
  forall w, Leads w0 w -> Visits (for_in_do f props w) (flat_map expected props).
Proof.
  intros Hfaithful. induction 1 as [|p rest Hp _ IH]; intros w Hw; simpl.
  - apply Visits_skip.
  - inversion Hfaithful as [|p' rest' Hfp Hfrest]; subst.
    apply Visits_and_then.
    + apply Hfp.
    + apply Hp. exact Hw.
    + intros w' Hw'. apply IH; [exact Hfrest|]. apply Leads_trans with w; assumption.
Qed.

Lemma steady_items w0 items :
  steady w0 (OfArray items) -> Forall (steady w0) items.
Proof.
  induction items as [|x rest IH]; simpl; intros H; constructor.
  - apply H.
  - apply IH. apply H.
Qed.

Lemma steady_props w0 (props : list (string * InputGroupContent World)) :
  steady w0 (OfObject props) -> Forall (fun p => steady w0 (snd p)) props.
Proof.
  induction props as [|p rest IH]; simpl; intros H; constructor.
  - apply H.
  - apply IH. apply H.
Qed.

(** On a steady tree a batch goes through the flattened inputs, in their
    order. *)
Lemma Visits_descend at_input w0 c :
  (forall i v, call_input (at_input i v) = i) ->
  steady w0 c -> content_keys_once w0 c = true ->
  forall v w,
    Leads w0 w ->
    Visits (descend at_input c v w) (flattenInputs (unwrapGroups w0 c) []).
Proof.
  intros Hat.
  induction c as [i|id c IH|id f IH|items IH|props IH] using content_induction;
    intros Hsteady Hkeys v w Hw.
  - simpl. rewrite <- (Hat i v) at 2. apply Visits_perform.
  - simpl in *. rewrite unwrapShape_id by apply unwrapGroups_keys_once.
    apply IH; assumption.
  - simpl in *. rewrite unwrapShape_id by apply unwrapGroups_keys_once.
    destruct Hsteady as [Hsame Hsteady]. rewrite (Hsame w Hw).
    apply IH; assumption.
  - rewrite flatten_unwrap_array. cbn [descend].
    apply steady_items in Hsteady. simpl in Hkeys.
    rewrite forallb_forall in Hkeys. rewrite Forall_forall in IH, Hsteady.
    apply Visits_map_indexed with (w0 := w0).
    + apply Forall_forall. intros x _ index. apply faithful_descend.
    + apply Forall_forall. intros x Hx index w' Hw'. apply IH; auto.
    + exact Hw.
  - simpl in Hkeys. apply andb_true_iff in Hkeys.
    destruct Hkeys as [Honce Hkeys].
    rewrite flatten_unwrap_object by exact Honce. cbn [descend].
    apply steady_props in Hsteady.
    rewrite forallb_forall in Hkeys. rewrite Forall_forall in IH, Hsteady.
    apply (Visits_for_in_do
             (fun input key => descend at_input input (and_key v key))
             (fun p => flattenInputs (unwrapGroups w0 (snd p)) [])) with (w0 := w0).
    + apply Forall_forall. intros p _. apply faithful_descend.
    + apply Forall_forall. intros p Hp w' Hw'. apply IH; auto.
    + exact Hw.
Qed.

(** A tree without description functions is steady. *)
Lemma static_steady w0 c : static c = true -> steady w0 c.
Proof.
  induction c as [i|id c IH|id f IH|items IH|props IH] using content_induction;
    simpl; intros H.
  - exact I.
  - apply IH. exact H.
  - discriminate.
  - rewrite forallb_forall in H. rewrite Forall_forall in IH.
    induction items as [|x rest IHrest]; [exact I|]. split.
    + apply IH; [left; reflexivity|]. apply H. left. reflexivity.
    + apply IHrest; intros y Hy; [apply IH | apply H]; right; exact Hy.
  - rewrite forallb_forall in H. rewrite Forall_forall in IH.
    induction props as [|p rest IHrest]; [exact I|]. split.
    + apply IH; [left; reflexivity|]. apply H. left. reflexivity.
    + apply IHrest; intros y Hy; [apply IH | apply H]; right; exact Hy.
Qed.

End Visited.

(** ** Value extraction *)

Section Values.

Variables World Error : Type.
Context {ops : InputOps World Error}.
Context {realm : Realm}.

Implicit Types (w : World) (s : InputShape) (g : InputGroup World).

Lemma getValueFromShape_mirrors w prop s :
  shape_keys_once s = true -> Mirrors w prop s (getValueFromShape w s prop).
Proof.
  induction s as [i|items IH|props IH] using shape_induction; simpl; intros H.
  - constructor.
  - constructor. rewrite forallb_forall in H. rewrite Forall_forall in IH.
    induction items as [|x rest IHrest]; simpl; constructor.
    + apply IH; [left; reflexivity|]. apply H. left. reflexivity.
    + apply IHrest.
      * intros y Hy. apply IH. right. exact Hy.
      * intros y Hy. apply H. right. exact Hy.
  - apply andb_true_iff in H. destruct H as [Honce H].
    rewrite for_in_unique by exact Honce. constructor.
    rewrite forallb_forall in H. rewrite Forall_forall in IH. clear Honce.
    induction props as [|p rest IHrest]; simpl; constructor.
    + split; [reflexivity|]. simpl.
      apply IH; [left; reflexivity|]. apply H. left. reflexivity.
    + apply IHrest.
      * intros y Hy. apply IH. right. exact Hy.
      * intros y Hy. apply H. right. exact Hy.
Qed.

Lemma Mirrors_array_length w prop items values :
  Mirrors w prop (ShArray items) (VArr values) ->
  List.length values = List.length items.
Proof.
  intros H. inversion H as [|items' values' Hall|]; subst.
  symmetry. apply (Forall2_length Hall).
Qed.

Lemma Mirrors_object_keys w prop props values :
  Mirrors w prop (ShObject props) (VBare values) ->
  map fst values = map fst props.
Proof.
  intros H. inversion H as [| |props' values' Hall]; subst. clear H.
  induction Hall as [|p q ps qs [Hk _] _ IH]; simpl.
  - reflexivity.
  - rewrite Hk, IH. reflexivity.
Qed.

End Values.

(** ** The lock-step descent *)

Section Descending.

Context {realm : Realm}.

Lemma and_key_descends v key :
  descends_at v key = true -> and_key v key = sub_value v key.
Proof.
  unfold descends_at, and_key, sub_value, get_key.
  destruct v; try reflexivity; intros H; apply andb_true_iff in H;
    destruct H as [-> H];
    destruct (own_property _ key); try reflexivity;
    destruct (inherited_property _ key); try reflexivity; discriminate.
Qed.

Lemma and_index_descends v index :
  descends_at v (index_key index) = true ->
  and_index v index = sub_value v (index_key index).
Proof. apply and_key_descends. Qed.

Lemma and_key_falsy v key : truthy v = false -> and_key v key = v.
Proof. unfold and_key. intros ->. reflexivity. Qed.

Lemma and_index_falsy v index : truthy v = false -> and_index v index = v.
Proof. unfold and_index. intros ->. reflexivity. Qed.

End Descending.

Lemma has_key_In (A : Type) (p : string * A) props :
  In p props -> has_key (fst p) props = true.
Proof.
  intros H. unfold has_key. apply existsb_exists. exists p.
  split; [exact H | apply String.eqb_refl].
Qed.

Lemma assoc_filter (A B : Type) key (props : list (string * A))
  (values : list (string * B)) :
  has_key key props = true ->
  assoc key (filter (fun q => has_key (fst q) props) values) = assoc key values.
Proof.
  intros Hkey. induction values as [|[k y] rest IH]; simpl; [reflexivity|].
  destruct (has_key k props) eqn:Hk; simpl.
  - rewrite IH. reflexivity.
  - destruct (String.eqb k key) eqn:E; [|exact IH].
    apply String.eqb_eq in E. congruence.
Qed.

Section Lockstep.

Variables World Error : Type.
Context {ops : InputOps World Error}.
Context {realm : Realm}.

Implicit Types (w : World) (c : InputGroupContent World) (v : jsval).

Lemma resetShape_excess_keys props values w :
  resetShape (OfObject props) (VObj values) w
  = resetShape (OfObject props)
      (VObj (filter (fun q => has_key (fst q) props) values)) w.
Proof.
  cbn [resetShape]. apply for_in_do_ext. apply Forall_forall.
  intros p Hp w'. unfold and_key, get_key. simpl.
  rewrite (assoc_filter (fst p) props values (has_key_In p props Hp)).
  reflexivity.
Qed.

End Lockstep.

(** ** The membership index *)

Module LookupFacts.
Import Lookup.

Lemma mem_add x y l : mem y (add x l) = Nat.eqb y x || mem y l.
Proof.
  unfold add. destruct (mem x l) eqn:E; simpl.
  - destruct (Nat.eqb y x) eqn:Eyx; simpl; [|reflexivity].
    apply Nat.eqb_eq in Eyx. subst y. exact E.
  - reflexivity.
Qed.

Lemma mem_delete x y l : mem y (delete x l) = negb (Nat.eqb y x) && mem y l.
Proof.
  unfold delete, mem. induction l as [|z rest IH]; simpl.
  - apply eq_sym, andb_false_r.
  - destruct (Nat.eqb x z) eqn:Exz; simpl.
    + apply Nat.eqb_eq in Exz. subst z. rewrite IH.
      destruct (Nat.eqb y x); reflexivity.
    + rewrite IH. destruct (Nat.eqb y z) eqn:Eyz; simpl.
      * apply Nat.eqb_eq in Eyz. subst z. rewrite Nat.eqb_sym, Exz. reflexivity.
      * reflexivity.
Qed.

Lemma delete_delete x l : delete x (delete x l) = delete x l.
Proof.
  unfold delete. induction l as [|z rest IH]; simpl; [reflexivity|].
  destruct (Nat.eqb x z) eqn:E; simpl; [exact IH|].
  rewrite E. simpl. rewrite IH. reflexivity.
Qed.

Lemma add_add x l : add x (add x l) = add x l.
Proof.
  unfold add at 1. rewrite mem_add, Nat.eqb_refl. reflexivity.
Qed.

(** After the update the group is recorded for the inputs of the new list
    and for no other input. *)
Lemma recompute_records g flattened index input :
  mem g (recompute g flattened index input) = mem input flattened.
Proof.
  unfold recompute. destruct (mem input flattened).
  - rewrite mem_add, Nat.eqb_refl. reflexivity.
  - rewrite mem_delete, Nat.eqb_refl. reflexivity.
Qed.

(** What is recorded for the other groups stays. *)
Lemma recompute_others g g' flattened index input :
  g' <> g ->
  mem g' (recompute g flattened index input) = mem g' (index input).
Proof.
  intros Hne. apply Nat.eqb_neq in Hne. unfold recompute.
  destruct (mem input flattened).
  - rewrite mem_add, Hne. reflexivity.
  - rewrite mem_delete, Hne. reflexivity.
Qed.

(** Updating again with the same list changes nothing. *)
Lemma recompute_again g flattened index input :
  recompute g flattened (recompute g flattened index) input
  = recompute g flattened index input.
Proof.
  unfold recompute. destruct (mem input flattened).
  - apply add_add.
  - apply delete_delete.
Qed.

End LookupFacts.

(** ** The properties of the specification *)

Section Claims.

Variables World Error : Type.
Context {ops : InputOps World Error}.
Context {realm : Realm}.

Implicit Types (w : World) (c : InputGroupContent World) (g : InputGroup World)
  (i : Input) (v : jsval) (args : option GroupArgs).

Lemma Executes_throw_here before :
  forall w call after o w0 e w',
    Executes w (before ++ call :: after) o ->
    Executes w before (Done w0) ->
    input_step call w0 = Thrown e w' ->
    after = [] /\ o = Thrown e w'.
Proof.
  induction before as [|c0 rest IH]; intros w call after o w0 e w' Hall Hbefore Hcall.
  - inversion Hbefore; subst. simpl in Hall.
    inversion Hall as [|w1 c1 w2 cs o1 Hstep Hrest|w1 c1 e1 w2 Hstep]; subst.
    + congruence.
    + split; [reflexivity | congruence].
  - inversion Hbefore as [|w1 c1 w2 cs o1 Hstep Hrest|]; subst.
    simpl in Hall.
    inversion Hall as [|w3 c3 w4 cs3 o3 Hstep3 Hrest3|w3 c3 e3 w4 Hstep3]; subst.
    + assert (w4 = w2) as -> by congruence.
      apply (IH w2 call after o w0 e w'); assumption.
    + destruct rest; discriminate.
Qed.

Lemma Executes_StopsAtThrow w run :
  Executes w (fst run) (snd run) -> StopsAtThrow w run.
Proof.
  intros H. split.
  - intros e w' Hthrown. rewrite Hthrown in H. apply Executes_thrown. exact H.
  - intros before call after w0 e w' Hcalls Hbefore Hcall.
    rewrite Hcalls in H. eapply Executes_throw_here; eassumption.
Qed.

Lemma reset_descend g args w :
  reset g args w = descend reset_call (structure g w) (args_and_value args) w.
Proof. apply resetShape_descend. Qed.

Lemma confirm_descend g args w :
  confirm g args w = descend confirm_call (structure g w) (args_and_value args) w.
Proof. apply confirmShape_descend. Qed.

(** Two reads of [flattedInputs] of a group made with a description
    function, in states where the function answers with trees that do not
    reach the same inputs, give two different lists. *)
Lemma flattedInputs_differ id (f : World -> InputGroupContent World) w1 w2 :
  content_keys_once w1 (f w1) = true ->
  content_keys_once w2 (f w2) = true ->
  ~ (forall i, Reachable w1 (f w1) i <-> Reachable w2 (f w2) i) ->
  let g := {| group_id := id; _inputs := Thunk f |} in
  flattedInputs g w1 <> flattedInputs g w2.
Proof.
  intros H1 H2 Hdiffer g Heq. apply Hdiffer. intros i.
  rewrite <- (flatten_reachable w1 (f w1) H1 i).
  rewrite <- (flatten_reachable w2 (f w2) H2 i).
  change (In i (flattedInputs g w1) <-> In i (flattedInputs g w2)).
  rewrite Heq. reflexivity.
Qed.

(** C2.  Every call that [confirm] of a group makes on an input is a call
    of the input's [confirm] that does not ask to advance to the next
    input.  Where the description functions of the structure answer the
    same all through the batch, the calls go through the flattened inputs
    in order. *)
Theorem confirm_never_requests_next g args w :
  Forall (fun call => confirm_without_next call = true) (fst (confirm g args w)) /\
  (steady w (structure g w) ->
   content_keys_once w (structure g w) = true ->
   Visits (confirm g args w) (flattedInputs g w)).
Proof.
  split.
  - rewrite confirm_descend.
    apply (descend_Forall (fun call => confirm_without_next call = true)
             (fun _ => True)); auto.
  - intros Hsteady Hkeys. rewrite confirm_descend.
    apply Visits_descend; auto. constructor.
Qed.

(** C3.  The flattened inputs of a group are the inputs one gets at by
    unwrapping its structure through arrays, objects and nested groups:
    every one of them, and no other.  (The objects of the structure have
    each key once, as objects do.) *)
Theorem flattedInputs_exact g w :
  content_keys_once w (structure g w) = true ->
  forall i, In i (flattedInputs g w) <-> Reachable w (structure g w) i.
Proof. intros H i. apply flatten_reachable. exact H. Qed.

(** C5.  In each of the three modes the value of a group mirrors its
    collapsed inputs: a sequence for a sequence, of the same length; a
    mapping for a mapping, with the same keys; for an input the value it
    holds in that mode; the empty sequence and the empty mapping for the
    empty ones. *)
Theorem value_mirrors_inputs g w :
  Mirrors w PValue (inputs g w) (value g w) /\
  Mirrors w PInputValue (inputs g w) (inputValue g w) /\
  Mirrors w PNormalizedInputValue (inputs g w) (normalizedInputValue g w).
Proof.
  repeat split; apply getValueFromShape_mirrors; apply inputs_keys_once.
Qed.

(** C8.  In a batch [reset] or [confirm], a call on an input that throws
    is the last call of the batch, and the batch ends with the error and
    the world of that call: the inputs after it are not gone through, and
    what the calls before it did stays done.  Where the description
    functions of the structure answer the same all through the batch, the
    calls made are the flattened inputs in order, up to the one that
    threw. *)
Theorem batch_stops_at_throw g args w :
  StopsAtThrow w (reset g args w) /\
  StopsAtThrow w (confirm g args w) /\
  (steady w (structure g w) ->
   content_keys_once w (structure g w) = true ->
   Visits (reset g args w) (flattedInputs g w) /\
   Visits (confirm g args w) (flattedInputs g w)).
Proof.
  split; [|split].
  - apply Executes_StopsAtThrow. rewrite reset_descend. apply faithful_descend.
  - apply Executes_StopsAtThrow. rewrite confirm_descend. apply faithful_descend.
  - intros Hsteady Hkeys. split.
    + rewrite reset_descend. apply Visits_descend; auto. constructor.
    + rewrite confirm_descend. apply Visits_descend; auto. constructor.
Qed.

(** C9.  On a tree with no group in it [unwrapGroups] answers with the
    same tree: the same arrays and objects, the same keys in the same
    order, the same inputs.  (The objects of the tree have each key once,
    as objects do.) *)
Theorem unwrapGroups_idempotent w c :
  no_groups c = true ->
  content_keys_once w c = true ->
  of_shape (unwrapGroups w c) = c.
Proof.
  induction c as [i|id c IH|id f IH|items IH|props IH] using content_induction;
    simpl; intros Hno Hkeys.
  - reflexivity.
  - discriminate.
  - discriminate.
  - f_equal. rewrite map_map. rewrite <- (map_id items) at 2.
    apply map_ext_in. intros x Hx.
    rewrite forallb_forall in Hno, Hkeys. rewrite Forall_forall in IH.
    apply IH; auto.
  - apply andb_true_iff in Hkeys. destruct Hkeys as [Honce Hkeys].
    rewrite for_in_unique by exact Honce.
    f_equal. rewrite map_map. rewrite <- (map_id props) at 2.
    apply map_ext_in. intros [k x] Hx. simpl. f_equal.
    rewrite forallb_forall in Hno, Hkeys. rewrite Forall_forall in IH.
    apply (IH (k, x) Hx); [apply (Hno (k, x) Hx) | apply (Hkeys (k, x) Hx)].
Qed.

End Claims.

(** ** Further properties of the code *)

Lemma flat_map_flat_map (X Y Z : Type) (f : Y -> list Z) (h : X -> list Y)
  (l : list X) :
  flat_map f (flat_map h l) = flat_map (fun x => flat_map f (h x)) l.
Proof.
  induction l as [|x rest IH]; simpl; [reflexivity|].
  rewrite flat_map_app, IH. reflexivity.
Qed.

Lemma map_over_flat_map (X Y Z : Type) (f : Y -> Z) (h : X -> list Y) (l : list X) :
  map f (flat_map h l) = flat_map (fun x => map f (h x)) l.
Proof.
  induction l as [|x rest IH]; simpl; [reflexivity|].
  rewrite map_app, IH. reflexivity.
Qed.

Lemma flat_map_agree (X Y : Type) (f h : X -> list Y) (l : list X) :
  (forall x, In x l -> f x = h x) -> flat_map f l = flat_map h l.
Proof.
  induction l as [|x rest IH]; simpl; intros H; [reflexivity|].
  rewrite (H x) by (left; reflexivity). rewrite IH; [reflexivity|].
  intros y Hy. apply H. right. exact Hy.
Qed.

Lemma to_uint_not_Nil n : Nat.to_uint n <> Decimal.Nil.
Proof.
  rewrite <- (Unsigned.of_to n) at 1. rewrite Unsigned.to_of.
  apply DecimalFacts.unorm_nonnil.
Qed.

Lemma index_key_inj i j : index_key i = index_key j -> i = j.
Proof.
  unfold index_key. intros H.
  apply (f_equal NilZero.uint_of_string) in H.
  rewrite !NilZero.usu in H by apply to_uint_not_Nil.
  injection H as H. apply Unsigned.to_uint_inj. exact H.
Qed.

Lemma key_index_here n i : i < n -> key_index n (index_key i) = Some i.
Proof.
  unfold key_index. intros Hi.
  assert (forall start len,
             start <= i < start + len ->
             find (fun k => String.eqb (index_key k) (index_key i)) (seq start len)
             = Some i) as Hfind.
  { intros start len. revert start.
    induction len as [|len IH]; intros start Hrange; simpl.
    - lia.
    - destruct (String.eqb (index_key start) (index_key i)) eqn:E.
      + apply String.eqb_eq, index_key_inj in E. subst. reflexivity.
      + apply IH. destruct (Nat.eq_dec start i) as [->|Hne].
        * rewrite String.eqb_refl in E. discriminate.
        * lia. }
  apply Hfind. lia.
Qed.

Lemma key_index_bound n key i : key_index n key = Some i -> i < n.
Proof.
  unfold key_index. intros H. apply find_some in H. destruct H as [H _].
  apply in_seq in H. lia.
Qed.

Lemma key_index_beyond n i : n <= i -> key_index n (index_key i) = None.
Proof.
  intros Hi. destruct (key_index n (index_key i)) as [k|] eqn:E; [|reflexivity].
  assert (k < n) as Hk by (apply key_index_bound with (index_key i); exact E).
  unfold key_index in E. apply find_some in E. destruct E as [_ E].
  apply String.eqb_eq, index_key_inj in E. lia.
Qed.

Lemma index_key_not_length i : String.eqb (index_key i) "length" = false.
Proof.
  destruct (String.eqb (index_key i) "length") eqn:E; [|reflexivity].
  apply String.eqb_eq in E. unfold index_key in E.
  apply (f_equal NilZero.uint_of_string) in E.
  rewrite NilZero.usu in E by apply to_uint_not_Nil.
  discriminate.
Qed.

Section Indexing.

Context {realm : Realm}.

(** [value[index]] on an array is the element at that place, [undefined]
    beyond the end. *)
Lemma get_index_array items index :
  get_index (VArr items) index = nth index items VUndefined.
Proof.
  unfold get_index, get_key, own_property, inherited_property. simpl.
  rewrite index_key_not_length, inherited_index.
  destruct (Nat.lt_ge_cases index (List.length items)) as [Hin|Hout].
  - rewrite key_index_here by exact Hin.
    destruct (nth_error items index) as [x|] eqn:E.
    + symmetry. apply nth_error_nth. exact E.
    + apply nth_error_None in E. lia.
  - rewrite key_index_beyond by exact Hout.
    symmetry. apply nth_overflow. exact Hout.
Qed.

Lemma get_beyond s index : String.length s <= index -> String.get index s = None.
Proof.
  revert index. induction s as [|ch rest IH]; intros index H; simpl.
  - reflexivity.
  - destruct index as [|index]; simpl in *; [lia|]. apply IH. lia.
Qed.

(** [value[index]] on a string is the character at that place, [undefined]
    beyond the end. *)
Lemma get_index_string s index :
  get_index (VStr s) index
  = match String.get index s with
    | Some ch => VStr (String ch EmptyString)
    | None => VUndefined
    end.
Proof.
  unfold get_index, get_key, own_property, inherited_property. simpl.
  rewrite index_key_not_length, inherited_index.
  destruct (Nat.lt_ge_cases index (String.length s)) as [Hin|Hout].
  - rewrite key_index_here by exact Hin. unfold char_at.
    destruct (String.get index s); reflexivity.
  - rewrite key_index_beyond by exact Hout.
    rewrite get_beyond by exact Hout. reflexivity.
Qed.

End Indexing.

Section StructureItems.

Variables World Error : Type.
Context {ops : InputOps World Error}.
Context {realm : Realm}.

Implicit Types (w : World) (c : InputGroupContent World) (s : InputShape)
  (g : InputGroup World) (i : Input) (v : jsval).

Lemma flattenStructure_buffer c :
  forall buffer, flattenStructure c buffer = buffer ++ flattenStructure c [].
Proof.
  induction c as [i|id c IH|id f IH|items IH|props IH] using content_induction;
    intros buffer; simpl; try reflexivity.
  - rewrite (fold_left_buffer (@flattenStructure World) IH buffer).
    rewrite (fold_left_buffer (@flattenStructure World) IH []). reflexivity.
  - rewrite (fold_left_buffer (fun p b => flattenStructure (snd p) b) IH buffer).
    rewrite (fold_left_buffer (fun p b => flattenStructure (snd p) b) IH []).
    reflexivity.
Qed.

Lemma flattenStructure_array (items : list (InputGroupContent World)) :
  flattenStructure (OfArray items) []
  = flat_map (fun x => flattenStructure x []) items.
Proof.
  simpl. rewrite (fold_left_buffer (@flattenStructure World)); [reflexivity|].
  apply Forall_forall. intros x _. apply flattenStructure_buffer.
Qed.

Lemma flattenStructure_object (props : list (string * InputGroupContent World)) :
  flattenStructure (OfObject props) []
  = flat_map (fun p => flattenStructure (snd p) []) props.
Proof.
  simpl. rewrite (fold_left_buffer (fun p b => flattenStructure (snd p) b));
    [reflexivity|].
  apply Forall_forall. intros x _. apply flattenStructure_buffer.
Qed.

Lemma flattenStructure_Occurs c item :
  In item (flattenStructure c []) <-> Occurs c item.
Proof.
  induction c as [i|id c IH|id f IH|items IH|props IH] using content_induction.
  - simpl. split.
    + intros [<-|[]]. constructor.
    + intros H. inversion H. left. reflexivity.
  - simpl. split.
    + intros [<-|[]]. constructor.
    + intros H. inversion H. left. reflexivity.
  - simpl. split.
    + intros [<-|[]]. constructor.
    + intros H. inversion H. left. reflexivity.
  - rewrite flattenStructure_array, in_flat_map. rewrite Forall_forall in IH.
    split.
    + intros [x [Hx Hitem]]. apply Occurs_item with x; [exact Hx|].
      apply IH; assumption.
    + intros H. inversion H as [| |items' x item' Hx Hocc|]; subst.
      exists x. split; [exact Hx|]. apply IH; assumption.
  - rewrite flattenStructure_object, in_flat_map. rewrite Forall_forall in IH.
    split.
    + intros [p [Hp Hitem]]. apply Occurs_prop with p; [exact Hp|].
      apply IH; assumption.
    + intros H. inversion H as [| | |props' p item' Hp Hocc]; subst.
      exists p. split; [exact Hp|]. apply IH; assumption.
Qed.

(** X1.  [flattenedStructure] lists the inputs and the groups that the
    structure holds in its arrays and objects, every one of them and
    nothing else; it stops at a group and does not look into it. *)
Theorem flattenedStructure_exact g w item :
  In item (flattenedStructure g w) <-> Occurs (structure g w) item.
Proof. apply flattenStructure_Occurs. Qed.

Lemma flatten_expands w c :
  content_keys_once w c = true ->
  flattenInputs (unwrapGroups w c) []
  = flat_map (expand w) (flattenStructure c []).
Proof.
  induction c as [i|id c IH|id f IH|items IH|props IH] using content_induction;
    intros Hkeys.
  - reflexivity.
  - rewrite unwrapGroups_group. simpl. rewrite app_nil_r. reflexivity.
  - rewrite unwrapGroups_group. simpl. rewrite app_nil_r. reflexivity.
  - rewrite flatten_unwrap_array, flattenStructure_array, flat_map_flat_map.
    simpl in Hkeys. rewrite forallb_forall in Hkeys. rewrite Forall_forall in IH.
    apply flat_map_agree. intros x Hx. apply IH; auto.
  - simpl in Hkeys. apply andb_true_iff in Hkeys. destruct Hkeys as [Honce Hkeys].
    rewrite flatten_unwrap_object by exact Honce.
    rewrite flattenStructure_object, flat_map_flat_map.
    rewrite forallb_forall in Hkeys. rewrite Forall_forall in IH.
    apply flat_map_agree. intros p Hp. apply IH; auto.
Qed.

(** X2.  The flattened inputs of a group are what its flattened structure
    stands for, item by item in the same order: an input for itself, a
    nested group for its own flattened inputs. *)
Theorem flattedInputs_from_flattenedStructure g w :
  content_keys_once w (structure g w) = true ->
  flattedInputs g w = flat_map (expand w) (flattenedStructure g w).
Proof. apply flatten_expands. Qed.

(** X3.  [flattenInputs] and [flattenStructure] only add to the buffer
    they are given: what it held comes first, unchanged, and what is added
    does not depend on it. *)
Theorem flatten_keeps_buffer s c (inputs_buffer : list Input)
  (items_buffer : list (StructureItem World)) :
  flattenInputs s inputs_buffer = inputs_buffer ++ flattenInputs s [] /\
  flattenStructure c items_buffer = items_buffer ++ flattenStructure c [].
Proof.
  split; [apply flattenInputs_buffer | apply flattenStructure_buffer].
Qed.

End StructureItems.

(** *** Values of members *)

Lemma assoc_map (A B : Type) (f : A -> B) key (props : list (string * A)) :
  assoc key (map (fun p => (fst p, f (snd p))) props)
  = option_map f (assoc key props).
Proof.
  induction props as [|[k x] rest IH]; simpl; [reflexivity|].
  destruct (String.eqb k key); [reflexivity | exact IH].
Qed.

Lemma assoc_In (A : Type) key (x : A) (props : list (string * A)) :
  keys_once props = true -> In (key, x) props -> assoc key props = Some x.
Proof.
  induction props as [|[k y] rest IH]; simpl; intros Honce Hin; [contradiction|].
  apply andb_true_iff in Honce. destruct Honce as [Hfresh Honce].
  destruct Hin as [Heq|Hin].
  - injection Heq as -> ->. rewrite String.eqb_refl. reflexivity.
  - apply negb_true_iff in Hfresh.
    destruct (String.eqb k key) eqn:E.
    + apply String.eqb_eq in E. subst k.
      pose proof (has_key_false_In _ _ Hfresh (key, x) Hin) as Hne.
      simpl in Hne. rewrite String.eqb_refl in Hne. discriminate.
    + apply IH; assumption.
Qed.

Lemma assoc_absent (A : Type) key (props : list (string * A)) :
  has_key key props = false -> assoc key props = None.
Proof.
  induction props as [|[k y] rest IH]; simpl; intros H; [reflexivity|].
  apply orb_false_iff in H. destruct H as [Hk Hrest]. simpl in Hk.
  rewrite Hk. apply IH. exact Hrest.
Qed.

Lemma for_in_agree (A B : Type) (f h : A -> B) (props : list (string * A)) :
  (forall p, In p props -> f (snd p) = h (snd p)) ->
  for_in f props = for_in h props.
Proof.
  unfold for_in. generalize (@nil (string * B)) as result.
  induction props as [|p rest IH]; simpl; intros result H; [reflexivity|].
  unfold assign at 2 4. rewrite (H p) by (left; reflexivity).
  apply IH. intros q Hq. apply H. right. exact Hq.
Qed.

Section MemberValues.

Variables World Error : Type.
Context {ops : InputOps World Error}.
Context {realm : Realm}.

Implicit Types (w : World) (c : InputGroupContent World) (s : InputShape)
  (g : InputGroup World) (i : Input) (v : jsval).

(** X4.  A group inside a structure stands for its own views: collapsing
    it gives its [inputs] (the second collapse that [unwrapGroups] applies
    to them changes nothing), and there the value and the flattened inputs
    are the group's own [value], [inputValue], [normalizedInputValue] and
    [flattedInputs]. *)
Theorem nested_group_own_views id (d : MaybeConstant World (InputGroupContent World)) w :
  let h := {| group_id := id; _inputs := d |} in
  unwrapGroups w (OfGroup id d) = inputs h w /\
  getValueFromShape w (unwrapGroups w (OfGroup id d)) PValue = value h w /\
  getValueFromShape w (unwrapGroups w (OfGroup id d)) PInputValue
  = inputValue h w /\
  getValueFromShape w (unwrapGroups w (OfGroup id d)) PNormalizedInputValue
  = normalizedInputValue h w /\
  flattenInputs (unwrapGroups w (OfGroup id d)) [] = flattedInputs h w.
Proof.
  intros h. rewrite unwrapGroups_group. repeat split.
Qed.

(** X5.  Over an object, the value of the group has under each key of the
    structure the value of the member at that key, and nothing
    ([undefined]) under any other key. *)
Theorem value_at_key g w props prop key :
  structure g w = OfObject props ->
  keys_once props = true ->
  (forall x,
      In (key, x) props ->
      get_key (getValueFromShape w (inputs g w) prop) key
      = getValueFromShape w (unwrapGroups w x) prop) /\
  (has_key key props = false ->
   get_key (getValueFromShape w (inputs g w) prop) key = VUndefined).
Proof.
  intros Hstructure Honce. unfold inputs. rewrite Hstructure.
  cbn [unwrapGroups getValueFromShape].
  rewrite (for_in_unique (unwrapGroups w) props Honce).
  assert (keys_once (map (fun p => (fst p, unwrapGroups w (snd p))) props) = true)
    as Honce'.
  { rewrite <- (for_in_unique (unwrapGroups w) props Honce).
    apply for_in_keys_once. }
  rewrite (for_in_unique _ _ Honce'). rewrite map_map. simpl.
  unfold get_key, own_property.
  rewrite (assoc_map (fun x => getValueFromShape w (unwrapGroups w x) prop)).
  split.
  - intros x Hx. rewrite (assoc_In key x props Honce Hx). reflexivity.
  - intros Habsent. rewrite (assoc_absent key props Habsent). reflexivity.
Qed.

(** X6.  Over an array, the value of the group has at each index the
    value of the member at that index, and nothing ([undefined]) beyond
    the end; its [length] is the number of members. *)
Theorem value_at_index g w items prop index :
  structure g w = OfArray items ->
  get_index (getValueFromShape w (inputs g w) prop) index
  = match nth_error items index with
    | Some x => getValueFromShape w (unwrapGroups w x) prop
    | None => VUndefined
    end /\
  get_key (getValueFromShape w (inputs g w) prop) "length"
  = VNum (Z.of_nat (List.length items)).
Proof.
  intros Hstructure. unfold inputs. rewrite Hstructure.
  cbn [unwrapGroups getValueFromShape]. rewrite map_map. split.
  - rewrite get_index_array.
    destruct (nth_error items index) as [x|] eqn:E.
    + apply nth_error_nth.
      rewrite nth_error_map, E. reflexivity.
    + apply nth_overflow. rewrite length_map. apply nth_error_None. exact E.
  - unfold get_key, own_property. simpl. rewrite length_map. reflexivity.
Qed.

Lemma getValueFromShape_agree w1 w2 prop s :
  (forall i, In i (flattenInputs s []) -> input_get prop i w1 = input_get prop i w2) ->
  getValueFromShape w1 s prop = getValueFromShape w2 s prop.
Proof.
  induction s as [i|items IH|props IH] using shape_induction; intros H.
  - simpl. apply H. left. reflexivity.
  - simpl. f_equal. apply map_ext_in. intros x Hx.
    rewrite Forall_forall in IH. apply IH; [exact Hx|].
    intros i Hi. apply H. rewrite flattenInputs_array. apply in_flat_map.
    exists x. split; assumption.
  - simpl. f_equal. apply for_in_agree. intros p Hp.
    rewrite Forall_forall in IH. apply IH; [exact Hp|].
    intros i Hi. apply H. rewrite flattenInputs_object. apply in_flat_map.
    exists p. split; assumption.
Qed.

(** X7.  The value of a group depends on the world through its inputs
    only: in two worlds where the group has the same [inputs] and each of
    its flattened inputs holds the same value, the group has the same
    [value], [inputValue] and [normalizedInputValue]. *)
Theorem value_depends_on_inputs g w1 w2 prop :
  inputs g w1 = inputs g w2 ->
  (forall i, In i (flattedInputs g w1) ->
             input_get prop i w1 = input_get prop i w2) ->
  getValueFromShape w1 (inputs g w1) prop = getValueFromShape w2 (inputs g w2) prop.
Proof.
  intros Hinputs Hsame. rewrite <- Hinputs.
  apply getValueFromShape_agree. exact Hsame.
Qed.

End MemberValues.

(** *** Batches and their plans *)

Section Planned.

Variables World Error : Type.
Context {ops : InputOps World Error}.
Context {realm : Realm}.

Implicit Types (w : World) (c : InputGroupContent World) (s : InputShape)
  (g : InputGroup World) (i : Input) (v : jsval) (a b : Action World Error).

Lemma Performs_skip w : Performs (skip (Error := Error) w) [].
Proof. reflexivity. Qed.

Lemma Performs_perform call w : Performs (perform call w) [call].
Proof.
  unfold Performs, perform. simpl. destruct (input_step call w); simpl.
  - reflexivity.
  - exists []. reflexivity.
Qed.

Lemma Performs_and_then a b w first second :
  faithful a ->
  Performs (a w) first -> (forall w', Leads w w' -> Performs (b w') second) ->
  Performs ((a ;; b) w) (first ++ second).
Proof.
  intros Ha. specialize (Ha w). revert Ha.
  unfold Performs, and_then. destruct (a w) as [calls [w'|e w']]; simpl.
  - intros Hrun <- Hb.
    specialize (Hb w' (Executes_Leads Hrun eq_refl)).
    destruct (b w') as [calls' [w2|e2 w2]]; simpl in *.
    + rewrite Hb. reflexivity.
    + destruct Hb as [rest ->]. exists rest. rewrite app_assoc. reflexivity.
  - intros _ [rest ->] _. exists (rest ++ second). rewrite app_assoc.
    reflexivity.
Qed.

(** On a steady tree a batch makes the calls of the plan, in order. *)
Lemma Performs_descend at_input w0 c :
  steady w0 c ->
  forall v w,
    Leads w0 w ->
    Performs (descend at_input c v w) (map (call_of at_input) (plan w0 c v)).
Proof.
  induction c as [i|id c IH|id f IH|items IH|props IH] using content_induction;
    intros Hsteady v w Hw.
  - apply Performs_perform.
  - simpl in *. apply IH; assumption.
  - simpl in *. destruct Hsteady as [Hsame Hsteady]. rewrite (Hsame w Hw).
    apply IH; assumption.
  - apply steady_items in Hsteady. cbn [descend plan].
    revert w Hw. generalize 0 as index.
    induction IH as [|x rest Hx _ IHrest]; intros index w Hw.
    + apply Performs_skip.
    + inversion Hsteady as [|x' rest' Hsx Hsrest]; subst.
      cbn [map_indexed]. rewrite map_app. apply Performs_and_then.
      * apply faithful_descend.
      * apply Hx; assumption.
      * intros w' Hw'. apply IHrest; [exact Hsrest|].
        apply Leads_trans with w; assumption.
  - apply steady_props in Hsteady. cbn [descend plan].
    revert w Hw.
    induction IH as [|p rest Hp _ IHrest]; intros w Hw.
    + apply Performs_skip.
    + inversion Hsteady as [|p' rest' Hsp Hsrest]; subst.
      cbn [for_in_do flat_map]. rewrite map_app. apply Performs_and_then.
      * apply faithful_descend.
      * apply Hp; assumption.
      * intros w' Hw'. apply IHrest; [exact Hsrest|].
        apply Leads_trans with w; assumption.
Qed.

(** *** The worlds of a batch *)

Lemma and_then_calls a b w : exists more, fst ((a ;; b) w) = fst (a w) ++ more.
Proof.
  unfold and_then. destruct (a w) as [calls [w'|e w']]; simpl.
  - destruct (b w') as [calls' o]. exists calls'. reflexivity.
  - exists []. symmetry. apply app_nil_r.
Qed.

Lemma and_then_done a b w w1 :
  snd (a w) = Done w1 ->
  (a ;; b) w = (fst (a w) ++ fst (b w1), snd (b w1)).
Proof.
  unfold and_then. destruct (a w) as [calls o]; simpl; intros ->.
  destruct (b w1); reflexivity.
Qed.

Lemma Reached_start w calls : Reached w calls w.
Proof. exists [], calls. split; [reflexivity | constructor]. Qed.

Lemma Reached_end w calls w' : Executes w calls (Done w') -> Reached w calls w'.
Proof.
  intros H. exists calls, []. split; [symmetry; apply app_nil_r | exact H].
Qed.

Lemma Reached_left a b w w' :
  Reached w (fst (a w)) w' -> Reached w (fst ((a ;; b) w)) w'.
Proof.
  intros [before [after [Hcalls Hrun]]].
  destruct (and_then_calls a b w) as [more Hmore].
  exists before, (after ++ more). split; [|exact Hrun].
  rewrite Hmore, Hcalls, app_assoc. reflexivity.
Qed.

Lemma Reached_right a b w w1 w' :
  faithful a -> snd (a w) = Done w1 ->
  Reached w1 (fst (b w1)) w' -> Reached w (fst ((a ;; b) w)) w'.
Proof.
  intros Ha Hdone [before [after [Hcalls Hrun]]].
  rewrite (and_then_done a b w Hdone). simpl.
  exists (fst (a w) ++ before), after. split.
  - rewrite Hcalls, app_assoc. reflexivity.
  - apply Executes_app with w1; [|exact Hrun].
    specialize (Ha w). rewrite Hdone in Ha. exact Ha.
Qed.

Lemma Performs_and_then_done a b w first second :
  Performs (a w) first ->
  (forall w1, snd (a w) = Done w1 -> Performs (b w1) second) ->
  Performs ((a ;; b) w) (first ++ second).
Proof.
  unfold Performs, and_then. destruct (a w) as [calls [w'|e w']]; simpl.
  - intros <- Hb. specialize (Hb w' eq_refl).
    destruct (b w') as [calls' [w2|e2 w2]]; simpl in *.
    + rewrite Hb. reflexivity.
    + destruct Hb as [rest ->]. exists rest. rewrite app_assoc. reflexivity.
  - intros [rest ->] _. exists (rest ++ second). rewrite app_assoc.
    reflexivity.
Qed.

Lemma steady_on_items P w0 (items : list (InputGroupContent World)) :
  steady_on P w0 (OfArray items) -> Forall (steady_on P w0) items.
Proof.
  induction items as [|x rest IH]; simpl; intros H; constructor.
  - apply H.
  - apply IH. apply H.
Qed.

Lemma steady_on_props P w0 (props : list (string * InputGroupContent World)) :
  steady_on P w0 (OfObject props) ->
  Forall (fun p => steady_on P w0 (snd p)) props.
Proof.
  induction props as [|p rest IH]; simpl; intros H; constructor.
  - apply H.
  - apply IH. apply H.
Qed.

(** A batch over a tree whose description functions answer the same in the
    worlds it goes through makes the calls of the plan, in order. *)
Lemma Performs_descend_on at_input (P : World -> Prop) w0 c :
  steady_on P w0 c ->
  forall v w,
    P w ->
    (forall w', Reached w (fst (descend at_input c v w)) w' -> P w') ->
    Performs (descend at_input c v w) (map (call_of at_input) (plan w0 c v)).
Proof.
  induction c as [i|id c IH|id f IH|items IH|props IH] using content_induction;
    intros Hsteady v w Hw Hreach.
  - apply Performs_perform.
  - simpl in *. apply IH; assumption.
  - simpl in *. destruct Hsteady as [Hsame Hsteady].
    rewrite (Hsame w Hw) in *. apply IH; assumption.
  - apply steady_on_items in Hsteady. cbn [descend plan] in *.
    revert w Hw Hreach. generalize 0 as index.
    induction IH as [|x rest Hx _ IHrest]; intros index w Hw Hreach.
    + apply Performs_skip.
    + inversion Hsteady as [|x' rest' Hsx Hsrest]; subst.
      cbn [map_indexed] in *. rewrite map_app. apply Performs_and_then_done.
      * apply Hx; [exact Hsx | exact Hw|].
        intros w' Hw'. apply Hreach. apply Reached_left. exact Hw'.
      * intros w1 Hdone. apply IHrest; [exact Hsrest| |].
        -- apply Hreach.
           apply (Reached_right _ _ (faithful_descend at_input x _) Hdone).
           apply Reached_start.
        -- intros w' Hw'. apply Hreach.
           apply (Reached_right _ _ (faithful_descend at_input x _) Hdone).
           exact Hw'.
  - apply steady_on_props in Hsteady. cbn [descend plan] in *.
    revert w Hw Hreach.
    induction IH as [|p rest Hp _ IHrest]; intros w Hw Hreach.
    + apply Performs_skip.
    + inversion Hsteady as [|p' rest' Hsp Hsrest]; subst.
      cbn [for_in_do flat_map] in *. rewrite map_app.
      apply Performs_and_then_done.
      * apply Hp; [exact Hsp | exact Hw|].
        intros w' Hw'. apply Hreach. apply Reached_left. exact Hw'.
      * intros w1 Hdone. apply IHrest; [exact Hsrest| |].
        -- apply Hreach.
           apply (Reached_right _ _ (faithful_descend at_input (snd p) _) Hdone).
           apply Reached_start.
        -- intros w' Hw'. apply Hreach.
           apply (Reached_right _ _ (faithful_descend at_input (snd p) _) Hdone).
           exact Hw'.
Qed.

Lemma Performs_descend_through at_input c v w :
  steady_through (descend at_input c v w) w c ->
  Performs (descend at_input c v w) (map (call_of at_input) (plan w c v)).
Proof.
  intros Hsteady.
  apply (Performs_descend_on at_input (Reached w (fst (descend at_input c v w)))).
  - exact Hsteady.
  - apply Reached_start.
  - intros w' Hw'. exact Hw'.
Qed.

(** X8.  Where the description functions of the structure answer the same
    all through the batch, that is in the worlds that the calls of the
    batch lead to one after the other, [reset] and [confirm] make the calls
    of one and the same plan: the same inputs in the same order, each with
    the same value, up to a call that throws. *)
Theorem batch_follows_plan g args w :
  (steady_through (reset g args w) w (structure g w) ->
   Performs (reset g args w)
     (map (call_of reset_call) (plan w (structure g w) (args_and_value args)))) /\
  (steady_through (confirm g args w) w (structure g w) ->
   Performs (confirm g args w)
     (map (call_of confirm_call) (plan w (structure g w) (args_and_value args)))).
Proof.
  split; intros Hsteady.
  - rewrite reset_descend in *. apply Performs_descend_through. exact Hsteady.
  - rewrite confirm_descend in *. apply Performs_descend_through. exact Hsteady.
Qed.

Lemma steady_inputs (ids : list Input) w0 :
  steady w0 (OfArray (map (@OfInput World) ids)).
Proof. induction ids as [|i rest IH]; simpl; [exact I | split; [exact I | exact IH]]. Qed.

Lemma steady_named (named : list (string * Input)) w0 :
  steady w0 (OfObject (map (fun p => (fst p, @OfInput World (snd p))) named)).
Proof.
  induction named as [|p rest IH]; simpl; [exact I | split; [exact I | exact IH]].
Qed.

Lemma plan_array_of_inputs w0 (ids : list Input) values :
  plan w0 (OfArray (map (@OfInput World) ids)) (VArr values)
  = map (fun p => (snd p, nth (fst p) values VUndefined))
      (combine (seq 0 (List.length ids)) ids).
Proof.
  cbn [plan]. generalize 0 as index.
  induction ids as [|i rest IH]; intros index; simpl; [reflexivity|].
  rewrite IH. unfold and_index. simpl. rewrite get_index_array. reflexivity.
Qed.

Lemma plan_object_of_inputs w0 (named : list (string * Input)) values :
  plan w0 (OfObject (map (fun p => (fst p, @OfInput World (snd p))) named))
    (VObj values)
  = map (fun p => (snd p, match assoc (fst p) values with
                          | Some x => x
                          | None =>
                              match inherited KObject (fst p) with
                              | Some member => member
                              | None => VUndefined
                              end
                          end)) named.
Proof.
  cbn [plan]. induction named as [|p rest IH]; simpl; [reflexivity|].
  rewrite IH. reflexivity.
Qed.

Lemma plan_bare_object_of_inputs w0 (named : list (string * Input)) values :
  plan w0 (OfObject (map (fun p => (fst p, @OfInput World (snd p))) named))
    (VBare values)
  = map (fun p => (snd p, match assoc (fst p) values with
                          | Some x => x
                          | None => VUndefined
                          end)) named.
Proof.
  cbn [plan]. induction named as [|p rest IH]; simpl; [reflexivity|].
  rewrite IH. unfold and_key, get_key, inherited_property. simpl.
  destruct (assoc (fst p) values); reflexivity.
Qed.

(** X9.  Over an array of inputs, [reset] and [confirm] with an array for
    value hand the element at its index to each input, and no value to the
    inputs beyond the end of the array; elements beyond the inputs are not
    looked at. *)
Theorem batch_array_by_position (ids : list Input) values w :
  Performs (resetShape (OfArray (map (@OfInput World) ids)) (VArr values) w)
    (map (fun p => reset_call (snd p) (nth (fst p) values VUndefined))
       (combine (seq 0 (List.length ids)) ids)) /\
  Performs (confirmShape (OfArray (map (@OfInput World) ids)) (VArr values) w)
    (map (fun p => confirm_call (snd p) (nth (fst p) values VUndefined))
       (combine (seq 0 (List.length ids)) ids)).
Proof.
  split.
  - rewrite resetShape_descend.
    rewrite <- (map_map (fun p => (snd p, nth (fst p) values VUndefined))
                  (call_of reset_call)).
    rewrite <- (plan_array_of_inputs w).
    apply Performs_descend; [apply steady_inputs | constructor].
  - rewrite confirmShape_descend.
    rewrite <- (map_map (fun p => (snd p, nth (fst p) values VUndefined))
                  (call_of confirm_call)).
    rewrite <- (plan_array_of_inputs w).
    apply Performs_descend; [apply steady_inputs | constructor].
Qed.

(** X10.  Over an object of inputs, [reset] and [confirm] with an object
    for value hand to each input the value under its key, whatever the
    order of the keys in the value.  Where the key is missing, an ordinary
    object hands down the member it inherits under that name, if there is
    one ([toString], [constructor]), and no value otherwise; an object
    without prototype always hands down no value. *)
Theorem batch_object_by_key (named : list (string * Input)) values w :
  let structure_of_inputs :=
    OfObject (map (fun p => (fst p, @OfInput World (snd p))) named) in
  let at_key (key : string) :=
    match assoc key values with
    | Some x => x
    | None =>
        match inherited KObject key with
        | Some member => member
        | None => VUndefined
        end
    end in
  let at_bare_key (key : string) :=
    match assoc key values with
    | Some x => x
    | None => VUndefined
    end in
  (Performs (resetShape structure_of_inputs (VObj values) w)
     (map (fun p => reset_call (snd p) (at_key (fst p))) named) /\
   Performs (confirmShape structure_of_inputs (VObj values) w)
     (map (fun p => confirm_call (snd p) (at_key (fst p))) named)) /\
  (Performs (resetShape structure_of_inputs (VBare values) w)
     (map (fun p => reset_call (snd p) (at_bare_key (fst p))) named) /\
   Performs (confirmShape structure_of_inputs (VBare values) w)
     (map (fun p => confirm_call (snd p) (at_bare_key (fst p))) named)).
Proof.
  intros structure_of_inputs at_key at_bare_key. unfold structure_of_inputs.
  split; split.
  - rewrite resetShape_descend.
    rewrite <- (map_map (fun p => (snd p, at_key (fst p))) (call_of reset_call)).
    unfold at_key. rewrite <- (plan_object_of_inputs w).
    apply Performs_descend; [apply steady_named | constructor].
  - rewrite confirmShape_descend.
    rewrite <- (map_map (fun p => (snd p, at_key (fst p))) (call_of confirm_call)).
    unfold at_key. rewrite <- (plan_object_of_inputs w).
    apply Performs_descend; [apply steady_named | constructor].
  - rewrite resetShape_descend.
    rewrite <- (map_map (fun p => (snd p, at_bare_key (fst p)))
                  (call_of reset_call)).
    unfold at_bare_key. rewrite <- (plan_bare_object_of_inputs w).
    apply Performs_descend; [apply steady_named | constructor].
  - rewrite confirmShape_descend.
    rewrite <- (map_map (fun p => (snd p, at_bare_key (fst p)))
                  (call_of confirm_call)).
    unfold at_bare_key. rewrite <- (plan_bare_object_of_inputs w).
    apply Performs_descend; [apply steady_named | constructor].
Qed.

Lemma plan_array_of_inputs_string w0 (ids : list Input) text :
  text <> EmptyString ->
  plan w0 (OfArray (map (@OfInput World) ids)) (VStr text)
  = map (fun p => (snd p, match String.get (fst p) text with
                          | Some ch => VStr (String ch EmptyString)
                          | None => VUndefined
                          end))
      (combine (seq 0 (List.length ids)) ids).
Proof.
  intros Htext. cbn [plan]. generalize 0 as index.
  induction ids as [|i rest IH]; intros index; simpl; [reflexivity|].
  rewrite IH. unfold and_index. simpl.
  destruct (String.eqb text EmptyString) eqn:E.
  - apply String.eqb_eq in E. contradiction.
  - simpl. rewrite get_index_string. reflexivity.
Qed.

(** X16.  Over an array of inputs, [reset] and [confirm] with a string
    that is not empty for value hand to each input the character at its
    index, as a string of one character, and no value to the inputs beyond
    the end of the string. *)
Theorem batch_array_from_string (ids : list Input) text w :
  text <> EmptyString ->
  let character (index : nat) :=
    match String.get index text with
    | Some ch => VStr (String ch EmptyString)
    | None => VUndefined
    end in
  Performs (resetShape (OfArray (map (@OfInput World) ids)) (VStr text) w)
    (map (fun p => reset_call (snd p) (character (fst p)))
       (combine (seq 0 (List.length ids)) ids)) /\
  Performs (confirmShape (OfArray (map (@OfInput World) ids)) (VStr text) w)
    (map (fun p => confirm_call (snd p) (character (fst p)))
       (combine (seq 0 (List.length ids)) ids)).
Proof.
  intros Htext character. split.
  - rewrite resetShape_descend.
    rewrite <- (map_map (fun p => (snd p, character (fst p))) (call_of reset_call)).
    unfold character. rewrite <- (plan_array_of_inputs_string w ids Htext).
    apply Performs_descend; [apply steady_inputs | constructor].
  - rewrite confirmShape_descend.
    rewrite <- (map_map (fun p => (snd p, character (fst p)))
                  (call_of confirm_call)).
    unfold character. rewrite <- (plan_array_of_inputs_string w ids Htext).
    apply Performs_descend; [apply steady_inputs | constructor].
Qed.

End Planned.

(** *** Restoring values *)

Section Restoring.

Variables World Error : Type.
Context {ops : InputOps World Error}.
Context {realm : Realm}.

Implicit Types (w : World) (c : InputGroupContent World) (s : InputShape)
  (g : InputGroup World) (i j : Input) (v : jsval).

Lemma plan_inputs w0 c :
  content_keys_once w0 c = true ->
  forall v, map fst (plan w0 c v) = flattenInputs (unwrapGroups w0 c) [].
Proof.
  induction c as [i|id c IH|id f IH|items IH|props IH] using content_induction;
    intros Hkeys v.
  - reflexivity.
  - simpl in *. rewrite unwrapShape_id by apply unwrapGroups_keys_once.
    apply IH. exact Hkeys.
  - simpl in *. rewrite unwrapShape_id by apply unwrapGroups_keys_once.
    apply IH. exact Hkeys.
  - rewrite flatten_unwrap_array. cbn [plan]. simpl in Hkeys.
    rewrite forallb_forall in Hkeys. generalize 0 as index.
    induction IH as [|x rest Hx _ IHrest]; intros index; simpl; [reflexivity|].
    rewrite map_app, Hx by (apply Hkeys; left; reflexivity).
    rewrite IHrest; [reflexivity|]. intros y Hy. apply Hkeys. right. exact Hy.
  - simpl in Hkeys. apply andb_true_iff in Hkeys. destruct Hkeys as [Honce Hkeys].
    rewrite flatten_unwrap_object by exact Honce. cbn [plan].
    rewrite forallb_forall in Hkeys. clear Honce.
    induction IH as [|p rest Hp _ IHrest]; simpl; [reflexivity|].
    rewrite map_app, Hp by (apply Hkeys; left; reflexivity).
    rewrite IHrest; [reflexivity|]. intros y Hy. apply Hkeys. right. exact Hy.
Qed.

(** The plan for a value read through the tree hands to each input what
    was read from it. *)
Lemma plan_snapshot w0 w1 prop c :
  content_keys_once w0 c = true ->
  plan w0 c (getValueFromShape w1 (unwrapGroups w0 c) prop)
  = map (fun i => (i, input_get prop i w1)) (flattenInputs (unwrapGroups w0 c) []).
Proof.
  induction c as [i|id c IH|id f IH|items IH|props IH] using content_induction;
    intros Hkeys.
  - reflexivity.
  - simpl in *. rewrite unwrapShape_id by apply unwrapGroups_keys_once.
    apply IH. exact Hkeys.
  - simpl in *. rewrite unwrapShape_id by apply unwrapGroups_keys_once.
    apply IH. exact Hkeys.
  - rewrite flatten_unwrap_array. cbn [unwrapGroups getValueFromShape plan].
    rewrite map_map. simpl in Hkeys. rewrite forallb_forall in Hkeys.
    rewrite Forall_forall in IH.
    set (member := fun x => getValueFromShape w1 (unwrapGroups w0 x) prop).
    assert (forall before after,
               items = before ++ after ->
               (fix go (xs : list (InputGroupContent World)) (index : nat)
                  : list (Input * jsval) :=
                  match xs with
                  | [] => []
                  | input :: rest =>
                      plan w0 input (and_index (VArr (map member items)) index)
                      ++ go rest (S index)
                  end) after (List.length before)
               = map (fun i => (i, input_get prop i w1))
                   (flat_map (fun x => flattenInputs (unwrapGroups w0 x) []) after))
      as Hgo.
    { intros before after. revert before.
      induction after as [|x rest IHafter]; intros before Hsplit; [reflexivity|].
      cbn [flat_map]. rewrite map_app.
      assert (and_index (VArr (map member items)) (List.length before) = member x)
        as Hhere.
      { unfold and_index. cbn [truthy]. rewrite get_index_array.
        rewrite Hsplit, map_app. cbn [map].
        rewrite <- (length_map member before). apply nth_middle. }
      rewrite Hhere. unfold member at 1.
      rewrite IH; [|rewrite Hsplit; apply in_elt | apply Hkeys; rewrite Hsplit;
                                                   apply in_elt].
      f_equal.
      rewrite <- (IHafter (before ++ [x])).
      - rewrite length_app. simpl. rewrite Nat.add_1_r. reflexivity.
      - rewrite <- app_assoc. exact Hsplit. }
    apply (Hgo [] items). reflexivity.
  - simpl in Hkeys. apply andb_true_iff in Hkeys. destruct Hkeys as [Honce Hkeys].
    rewrite flatten_unwrap_object by exact Honce.
    cbn [unwrapGroups getValueFromShape plan].
    rewrite (for_in_unique (unwrapGroups w0) props Honce).
    assert (keys_once (map (fun p => (fst p, unwrapGroups w0 (snd p))) props) = true)
      as Honce'.
    { rewrite <- (for_in_unique (unwrapGroups w0) props Honce).
      apply for_in_keys_once. }
    rewrite (for_in_unique _ _ Honce'). rewrite map_map. cbn [fst snd].
    rewrite forallb_forall in Hkeys. rewrite Forall_forall in IH.
    rewrite map_over_flat_map.
    apply flat_map_agree. intros p Hp.
    unfold and_key. cbn [truthy]. unfold get_key, own_property.
    rewrite (assoc_map (fun x => getValueFromShape w1 (unwrapGroups w0 x) prop)).
    rewrite (assoc_In (fst p) (snd p) props Honce)
      by (destruct p; exact Hp).
    simpl. apply IH; [exact Hp | apply Hkeys; exact Hp].
Qed.

Lemma steady_unwrapGroups w0 c :
  steady w0 c -> forall w, Leads w0 w -> unwrapGroups w c = unwrapGroups w0 c.
Proof.
  induction c as [i|id c IH|id f IH|items IH|props IH] using content_induction;
    intros Hsteady w Hw.
  - reflexivity.
  - simpl in *. rewrite IH by assumption. reflexivity.
  - simpl in *. destruct Hsteady as [Hsame Hsteady].
    rewrite (Hsame w Hw). rewrite (IH w0 Hsteady w Hw). reflexivity.
  - apply steady_items in Hsteady. simpl. f_equal. apply map_ext_in.
    intros x Hx. rewrite Forall_forall in IH, Hsteady. apply IH; auto.
  - apply steady_props in Hsteady. simpl. f_equal. apply for_in_agree.
    intros p Hp. rewrite Forall_forall in IH, Hsteady. apply IH; auto.
Qed.

Lemma steady_on_unwrapGroups P w0 c :
  steady_on P w0 c -> forall w, P w -> unwrapGroups w c = unwrapGroups w0 c.
Proof.
  induction c as [i|id c IH|id f IH|items IH|props IH] using content_induction;
    intros Hsteady w Hw.
  - reflexivity.
  - simpl in *. rewrite IH by assumption. reflexivity.
  - simpl in *. destruct Hsteady as [Hsame Hsteady].
    rewrite (Hsame w Hw). rewrite (IH w0 Hsteady w Hw). reflexivity.
  - apply steady_on_items in Hsteady. simpl. f_equal. apply map_ext_in.
    intros x Hx. rewrite Forall_forall in IH, Hsteady. apply IH; auto.
  - apply steady_on_props in Hsteady. simpl. f_equal. apply for_in_agree.
    intros p Hp. rewrite Forall_forall in IH, Hsteady. apply IH; auto.
Qed.

(** The plan for a falsy value hands that value to every input. *)
Lemma plan_falsy w0 c :
  content_keys_once w0 c = true ->
  forall v,
    truthy v = false ->
    plan w0 c v = map (fun i => (i, v)) (flattenInputs (unwrapGroups w0 c) []).
Proof.
  induction c as [i|id c IH|id f IH|items IH|props IH] using content_induction;
    intros Hkeys v Hv.
  - reflexivity.
  - simpl in *. rewrite unwrapShape_id by apply unwrapGroups_keys_once.
    apply IH; assumption.
  - simpl in *. rewrite unwrapShape_id by apply unwrapGroups_keys_once.
    apply IH; assumption.
  - rewrite flatten_unwrap_array. cbn [plan]. simpl in Hkeys.
    rewrite forallb_forall in Hkeys. generalize 0 as index.
    induction IH as [|x rest Hx _ IHrest]; intros index; simpl; [reflexivity|].
    rewrite map_app, and_index_falsy by exact Hv.
    rewrite Hx by (try exact Hv; apply Hkeys; left; reflexivity).
    rewrite IHrest; [reflexivity|]. intros y Hy. apply Hkeys. right. exact Hy.
  - simpl in Hkeys. apply andb_true_iff in Hkeys. destruct Hkeys as [Honce Hkeys].
    rewrite flatten_unwrap_object by exact Honce. cbn [plan].
    rewrite forallb_forall in Hkeys. clear Honce.
    induction IH as [|p rest Hp _ IHrest]; simpl; [reflexivity|].
    rewrite map_app, and_key_falsy by exact Hv.
    rewrite Hp by (try exact Hv; apply Hkeys; left; reflexivity).
    rewrite IHrest; [reflexivity|]. intros y Hy. apply Hkeys. right. exact Hy.
Qed.


Lemma Performs_prefix (run : list Call * Outcome World Error) expected :
  Performs run expected -> exists rest, expected = fst run ++ rest.
Proof.
  unfold Performs. destruct (snd run).
  - intros <-. exists []. symmetry. apply app_nil_r.
  - intros H. exact H.
Qed.

Section Operations.

Variable prop : valueProp.
Variable at_input : Input -> jsval -> Call.
Hypothesis keeps : KeepsOthers prop at_input.

Lemma others_kept j w calls o :
  Executes w calls o ->
  Forall (fun call => exists i x, call = at_input i x /\ i <> j) calls ->
  input_get prop j (outcome_world o) = input_get prop j w.
Proof.
  induction 1 as [w|w call w1 calls o Hstep _ IH|w call e w1 Hstep]; intros Hcalls.
  - reflexivity.
  - inversion Hcalls as [|call' calls' [i [x [-> Hne]]] Hrest]; subst.
    rewrite (IH Hrest).
    pose proof (@keeps i x w j (not_eq_sym Hne)) as Hkept.
    rewrite Hstep in Hkept. exact Hkept.
  - inversion Hcalls as [|call' calls' [i [x [-> Hne]]] Hrest]; subst.
    pose proof (@keeps i x w j (not_eq_sym Hne)) as Hkept.
    rewrite Hstep in Hkept. exact Hkept.
Qed.

Hypothesis stores : Stores prop at_input.

Lemma stored_after (held_by : Input -> jsval) ids :
  (forall i, In i ids -> held_by i <> VUndefined) ->
  forall w w',
    Executes w (map (fun i => at_input i (held_by i)) ids) (Done w') ->
    forall j,
      In j ids \/ input_get prop j w = held_by j ->
      input_get prop j w' = held_by j.
Proof.
  intros Hdefined. induction ids as [|i rest IH]; intros w w' Hrun j Hj.
  - inversion Hrun; subst. destruct Hj as [[]|Hj]. exact Hj.
  - cbn [map] in Hrun.
    inversion Hrun as [|w0 call w1 calls o Hstep Hrest|]; subst.
    apply (IH (fun k Hk => Hdefined k (or_intror Hk)) w1 w' Hrest).
    destruct (Nat.eq_dec j i) as [->|Hne].
    + right. apply (@stores i (held_by i) w w1 (Hdefined i (or_introl eq_refl)) Hstep).
    + destruct Hj as [[Heq|Hin]|Hheld].
      * congruence.
      * left. exact Hin.
      * right. rewrite <- Hheld.
        pose proof (@keeps i (held_by i) w j Hne) as Hkept.
        rewrite Hstep in Hkept. exact Hkept.
Qed.

(** A batch that hands back to the inputs of a group the values read
    from them in [w1] leaves the group with the value it had in [w1]. *)
Lemma descend_restores g w w1 calls w' :
  steady_through
    (descend at_input (structure g w) (getValueFromShape w1 (inputs g w1) prop) w)
    w (as_content g) ->
  content_keys_once w (structure g w) = true ->
  inputs g w1 = inputs g w ->
  (forall i, In i (flattedInputs g w) -> input_get prop i w1 <> VUndefined) ->
  descend at_input (structure g w) (getValueFromShape w1 (inputs g w1) prop) w
  = (calls, Done w') ->
  getValueFromShape w' (inputs g w') prop = getValueFromShape w1 (inputs g w1) prop.
Proof.
  intros Hsteady Hkeys Hsame Hdefined Hrun.
  assert (steady_through
            (descend at_input (structure g w)
               (getValueFromShape w1 (inputs g w1) prop) w)
            w (structure g w)) as Hsteady'.
  { unfold steady_through, as_content, structure in *. simpl in Hsteady.
    destruct (_inputs g); [exact Hsteady | apply Hsteady]. }
  pose proof (Performs_descend_through at_input (structure g w)
                (getValueFromShape w1 (inputs g w1) prop) w Hsteady') as Hplan.
  pose proof (faithful_descend at_input (structure g w)
                (getValueFromShape w1 (inputs g w1) prop) w) as Hexec.
  unfold steady_through in Hsteady.
  rewrite Hrun in Hplan, Hexec, Hsteady. unfold Performs in Hplan.
  simpl in Hplan, Hexec, Hsteady.
  rewrite Hsame in Hplan. unfold inputs at 1 in Hplan.
  rewrite plan_snapshot in Hplan by exact Hkeys.
  rewrite map_map in Hplan. unfold call_of in Hplan. simpl in Hplan.
  assert (inputs g w' = inputs g w) as Hkept.
  { pose proof (@steady_on_unwrapGroups _ w (as_content g) Hsteady w'
                  (Reached_end Hexec)) as Hunwrap.
    unfold as_content in Hunwrap. rewrite !unwrapGroups_group in Hunwrap.
    destruct g as [id d]. exact Hunwrap. }
  rewrite Hplan in Hexec.
  rewrite Hkept, Hsame. apply getValueFromShape_agree.
  intros i Hi.
  apply (stored_after (fun k => input_get prop k w1) _ Hdefined Hexec).
  left. exact Hi.
Qed.

End Operations.

(** X11.  Restoring with [reset].  Let the inputs store the value they are
    reset with and leave the other inputs alone, and let the description
    functions answer the same all through the batch, that is in the worlds
    its calls lead to one after the other.  Then a [reset] that returns,
    given for value the [value] the group had in a world [w1] (where it
    had the same inputs, none of them holding [undefined]), leaves the
    group with that [value]. *)
Theorem reset_restores_value g w w1 calls w' :
  steady_through (reset g (Some {| args_value := value g w1 |}) w) w
    (as_content g) ->
  content_keys_once w (structure g w) = true ->
  inputs g w1 = inputs g w ->
  (forall i, In i (flattedInputs g w) -> input_get PValue i w1 <> VUndefined) ->
  Stores PValue reset_call ->
  KeepsOthers PValue reset_call ->
  reset g (Some {| args_value := value g w1 |}) w = (calls, Done w') ->
  value g w' = value g w1.
Proof.
  intros Hsteady Hkeys Hsame Hdefined Hstores Hkeeps Hrun.
  rewrite reset_descend in Hrun, Hsteady.
  unfold value.
  eapply (descend_restores Hkeeps Hstores); [exact Hsteady | exact Hkeys | exact Hsame | exact Hdefined | exact Hrun].
Qed.

(** X12.  Restoring with [confirm]: the same, for a [confirm] that returns
    and inputs that store the value they are confirmed with. *)
Theorem confirm_restores_value g w w1 calls w' :
  steady_through (confirm g (Some {| args_value := value g w1 |}) w) w
    (as_content g) ->
  content_keys_once w (structure g w) = true ->
  inputs g w1 = inputs g w ->
  (forall i, In i (flattedInputs g w) -> input_get PValue i w1 <> VUndefined) ->
  Stores PValue confirm_call ->
  KeepsOthers PValue confirm_call ->
  confirm g (Some {| args_value := value g w1 |}) w = (calls, Done w') ->
  value g w' = value g w1.
Proof.
  intros Hsteady Hkeys Hsame Hdefined Hstores Hkeeps Hrun.
  rewrite confirm_descend in Hrun, Hsteady.
  unfold value.
  eapply (descend_restores Hkeeps Hstores); [exact Hsteady | exact Hkeys | exact Hsame | exact Hdefined | exact Hrun].
Qed.

Lemma descend_keeps_others prop at_input c w v j :
  KeepsOthers prop at_input ->
  steady_through (descend at_input c v w) w c ->
  content_keys_once w c = true ->
  ~ In j (flattenInputs (unwrapGroups w c) []) ->
  input_get prop j (outcome_world (snd (descend at_input c v w)))
  = input_get prop j w.
Proof.
  intros Hkeeps Hsteady Hkeys Hout.
  apply (others_kept Hkeeps (j := j) (faithful_descend at_input c v w)).
  destruct (@Performs_prefix _ _
              (Performs_descend_through at_input c v w Hsteady))
    as [rest Hplan].
  apply Forall_forall. intros call Hcall.
  assert (In call (map (call_of at_input) (plan w c v))) as Hin.
  { rewrite Hplan. apply in_or_app. left. exact Hcall. }
  apply in_map_iff in Hin. destruct Hin as [[i x] [<- Hp]].
  exists i, x. split; [reflexivity|]. intros ->. apply Hout.
  rewrite <- (plan_inputs w c Hkeys v).
  apply (in_map fst) in Hp. exact Hp.
Qed.

(** X13.  A batch touches the inputs of the group only.  Where each
    operation of an input leaves the other inputs alone and the
    description functions answer the same all through the batch (in the
    worlds its calls lead to one after the other), an input that is not
    among the flattened inputs of the group holds after [reset] and after
    [confirm] what it held before, whether the batch returned or threw. *)
Theorem batch_leaves_other_inputs g args w prop j :
  content_keys_once w (structure g w) = true ->
  ~ In j (flattedInputs g w) ->
  (KeepsOthers prop reset_call ->
   steady_through (reset g args w) w (structure g w) ->
   input_get prop j (outcome_world (snd (reset g args w))) = input_get prop j w) /\
  (KeepsOthers prop confirm_call ->
   steady_through (confirm g args w) w (structure g w) ->
   input_get prop j (outcome_world (snd (confirm g args w))) = input_get prop j w).
Proof.
  intros Hkeys Hout. split; intros Hkeeps Hsteady.
  - rewrite reset_descend in *. apply descend_keeps_others; assumption.
  - rewrite confirm_descend in *. apply descend_keeps_others; assumption.
Qed.

End Restoring.

(** *** Structures without groups, values that are not containers *)

Section Edges.

Variables World Error : Type.
Context {ops : InputOps World Error}.
Context {realm : Realm}.

Implicit Types (w : World) (c : InputGroupContent World) (g : InputGroup World)
  (i : Input) (v : jsval).

Lemma flattenStructure_no_groups w c :
  no_groups c = true ->
  content_keys_once w c = true ->
  flattenStructure c []
  = map (@ItemInput World) (flattenInputs (unwrapGroups w c) []).
Proof.
  induction c as [i|id c IH|id f IH|items IH|props IH] using content_induction;
    intros Hno Hkeys.
  - reflexivity.
  - discriminate.
  - discriminate.
  - rewrite flattenStructure_array, flatten_unwrap_array, map_over_flat_map.
    simpl in Hno, Hkeys. rewrite forallb_forall in Hno, Hkeys.
    rewrite Forall_forall in IH. apply flat_map_agree. intros x Hx.
    apply IH; auto.
  - simpl in Hno, Hkeys. apply andb_true_iff in Hkeys.
    destruct Hkeys as [Honce Hkeys].
    rewrite flattenStructure_object, flatten_unwrap_object by exact Honce.
    rewrite map_over_flat_map.
    rewrite forallb_forall in Hno, Hkeys. rewrite Forall_forall in IH.
    apply flat_map_agree. intros p Hp. apply IH; auto.
Qed.

(** X14.  Where the structure of a group holds no group, its flattened
    structure is its flattened inputs: the same inputs in the same
    order. *)
Theorem flattenedStructure_without_groups g w :
  no_groups (structure g w) = true ->
  content_keys_once w (structure g w) = true ->
  flattenedStructure g w = map (@ItemInput World) (flattedInputs g w).
Proof. apply flattenStructure_no_groups. Qed.



End Edges.

(** ** Getters as runs *)

Section Reading.

Variables World Error : Type.
Context {ops : InputOps World Error}.
Context {realm : Realm}.

Implicit Types (w : World) (c : InputGroupContent World) (s : InputShape)
  (g : InputGroup World).

Lemma ReadOnly_ret (A : Type) (a : A) w : ReadOnly (Error := Error) (ret a w) w a.
Proof. split; [reflexivity | constructor]. Qed.

Lemma ReadOnly_bind (A B : Type) (m : Getter World Error A)
  (k : A -> Getter World Error B) w a b :
  ReadOnly (m w) w a -> ReadOnly (k a w) w b -> ReadOnly (bind m k w) w b.
Proof.
  unfold ReadOnly, bind. destruct (m w) as [events r]. simpl. intros [-> Hm].
  destruct (k a w) as [events' r']. simpl. intros [-> Hk].
  split; [reflexivity|]. apply Forall_app. split; assumption.
Qed.

Lemma ReadOnly_ask id (f : World -> InputGroupContent World) w :
  ReadOnly (Error := Error) (ask id f w) w (f w).
Proof. split; [reflexivity | repeat constructor]. Qed.

Lemma ReadOnly_read prop i w : ReadOnly (Error := Error) (read prop i w) w (input_get prop i w).
Proof. split; [reflexivity | repeat constructor]. Qed.

Lemma ReadOnly_map_get (A B : Type) (f : A -> Getter World Error B) (h : A -> B)
  w items :
  Forall (fun x => ReadOnly (f x w) w (h x)) items ->
  ReadOnly (map_get f items w) w (map h items).
Proof.
  induction 1 as [|x rest Hx _ IH]; simpl.
  - apply ReadOnly_ret.
  - eapply ReadOnly_bind; [exact Hx|].
    eapply ReadOnly_bind; [exact IH|]. apply ReadOnly_ret.
Qed.

Lemma ReadOnly_for_in_get (A B : Type) (f : A -> Getter World Error B)
  (h : A -> B) w props :
  Forall (fun p => ReadOnly (f (snd p) w) w (h (snd p))) props ->
  forall result,
    ReadOnly (for_in_get f props result w) w (fold_left (assign h) props result).
Proof.
  induction 1 as [|p rest Hp _ IH]; intros result; simpl.
  - apply ReadOnly_ret.
  - eapply ReadOnly_bind; [exact Hp|]. apply IH.
Qed.

(** The run of [unwrapGroups] only asks description functions, and
    returns what [unwrapGroups] is in the world of the run. *)
Lemma unwrapGroups_run_reads c :
  forall w, ReadOnly (Error := Error) (unwrapGroups_run c w) w (unwrapGroups w c).
Proof.
  induction c as [i|id c IH|id f IH|items IH|props IH] using content_induction;
    intros w; cbn [unwrapGroups_run unwrapGroups].
  - apply ReadOnly_ret.
  - eapply ReadOnly_bind; [apply IH|]. apply ReadOnly_ret.
  - eapply ReadOnly_bind; [|apply ReadOnly_ret].
    specialize (IH w w). unfold ReadOnly in *.
    destruct (unwrapGroups_run (f w) w) as [events r]. simpl in *.
    destruct IH as [-> Hevents]. split; [reflexivity|].
    constructor; [reflexivity | exact Hevents].
  - eapply ReadOnly_bind; [|apply ReadOnly_ret].
    apply ReadOnly_map_get. apply Forall_impl with (2 := IH).
    intros x Hx. apply Hx.
  - eapply ReadOnly_bind; [|apply ReadOnly_ret].
    apply (ReadOnly_for_in_get _ (unwrapGroups w)).
    apply Forall_impl with (2 := IH). intros p Hp. apply Hp.
Qed.

(** The run of [getValueFromShape] only reads values of inputs. *)
Lemma getValueFromShape_run_reads prop s :
  forall w,
    ReadOnly (Error := Error) (getValueFromShape_run s prop w) w
      (getValueFromShape w s prop).
Proof.
  induction s as [i|items IH|props IH] using shape_induction; intros w;
    cbn [getValueFromShape_run getValueFromShape].
  - apply ReadOnly_read.
  - eapply ReadOnly_bind; [|apply ReadOnly_ret].
    apply (ReadOnly_map_get _ (fun input => getValueFromShape w input prop)).
    apply Forall_impl with (2 := IH). intros x Hx. apply Hx.
  - eapply ReadOnly_bind; [|apply ReadOnly_ret].
    apply (ReadOnly_for_in_get _ (fun input => getValueFromShape w input prop)).
    apply Forall_impl with (2 := IH). intros p Hp. apply Hp.
Qed.

Lemma structure_getter_reads g w :
  ReadOnly (Error := Error) (structure_getter g w) w (structure g w).
Proof.
  unfold structure_getter, structure. destruct (_inputs g).
  - apply ReadOnly_ret.
  - apply ReadOnly_ask.
Qed.

Lemma inputs_getter_reads g w :
  ReadOnly (Error := Error) (inputs_getter g w) w (inputs g w).
Proof.
  eapply ReadOnly_bind; [apply structure_getter_reads|].
  apply unwrapGroups_run_reads.
Qed.

(** A run that made a call on an input did not only read. *)
Lemma ReadOnly_no_call (A : Type) (run : list Event * Ended World Error A) w a call :
  In (CallInput call) (fst run) -> ~ ReadOnly run w a.
Proof.
  intros Hin [_ Hall]. rewrite Forall_forall in Hall.
  specialize (Hall _ Hin). discriminate.
Qed.

End Reading.

(** ** The properties of the specification: lock-step, delegation, falsy
    values *)

Section Descent.

Variables World Error : Type.
Context {ops : InputOps World Error}.
Context {realm : Realm}.

Implicit Types (w : World) (c : InputGroupContent World) (g : InputGroup World)
  (i : Input) (v : jsval) (args : option GroupArgs).

Lemma and_then_agree (a a' b b' : Action World Error) w :
  a w = a' w ->
  (forall w1, snd (a w) = Done w1 -> b w1 = b' w1) ->
  (a ;; b) w = (a' ;; b') w.
Proof.
  intros Ha Hb. unfold and_then. rewrite <- Ha.
  destruct (a w) as [calls [w1|e w1]]; [rewrite (Hb w1 eq_refl)|]; reflexivity.
Qed.

(** Where the value tree descends at every member that the batch comes
    by, the descent of [resetShape] is the lock-step descent. *)
Lemma descend_lockstep_on (P : World -> Prop) c :
  forall v,
    covers P c v ->
    forall w,
      P w ->
      (forall w', Reached w (fst (descend reset_call c v w)) w' -> P w') ->
      descend reset_call c v w = lockstep_reset c v w.
Proof.
  induction c as [i|id c IH|id f IH|items IH|props IH] using content_induction;
    intros v Hcovers w Hw Hreach.
  - reflexivity.
  - simpl in *. apply IH; assumption.
  - simpl in *. apply IH; [apply Hcovers; exact Hw | exact Hw | exact Hreach].
  - cbn [covers] in Hcovers. rename Hcovers into Hitems.
    cbn [descend lockstep_reset] in *. revert Hitems w Hw Hreach.
    generalize 0 as index.
    induction IH as [|x rest Hx _ IHrest]; intros index Hitems w Hw Hreach.
    + reflexivity.
    + destruct Hitems as [Hv [Hhere Hrest]]. cbn [map_indexed] in *.
      rewrite (and_index_descends _ _ Hv) in *.
      apply and_then_agree.
      * apply Hx; [exact Hhere | exact Hw|].
        intros w' Hw'. apply Hreach. apply Reached_left. exact Hw'.
      * intros w1 Hdone. apply IHrest; [exact Hrest| |].
        -- apply Hreach.
           apply (Reached_right _ _ (faithful_descend reset_call x _) Hdone).
           apply Reached_start.
        -- intros w' Hw'. apply Hreach.
           apply (Reached_right _ _ (faithful_descend reset_call x _) Hdone).
           exact Hw'.
  - cbn [covers] in Hcovers. rename Hcovers into Hprops.
    cbn [descend lockstep_reset] in *. revert Hprops w Hw Hreach.
    induction IH as [|p rest Hp _ IHrest]; intros Hprops w Hw Hreach.
    + reflexivity.
    + destruct Hprops as [Hv [Hhere Hrest]]. cbn [for_in_do] in *.
      rewrite (and_key_descends _ _ Hv) in *.
      apply and_then_agree.
      * apply Hp; [exact Hhere | exact Hw|].
        intros w' Hw'. apply Hreach. apply Reached_left. exact Hw'.
      * intros w1 Hdone. apply IHrest; [exact Hrest| |].
        -- apply Hreach.
           apply (Reached_right _ _ (faithful_descend reset_call (snd p) _) Hdone).
           apply Reached_start.
        -- intros w' Hw'. apply Hreach.
           apply (Reached_right _ _ (faithful_descend reset_call (snd p) _) Hdone).
           exact Hw'.
Qed.

(** What a batch throws, an operation of an input threw. *)
Lemma descend_throws at_input c v w e w' :
  snd (descend at_input c v w) = Thrown e w' ->
  exists call w0,
    In call (fst (descend at_input c v w)) /\ input_step call w0 = Thrown e w'.
Proof.
  intros Hthrown.
  assert (Executes w (fst (descend at_input c v w)) (Thrown e w')) as Hrun.
  { rewrite <- Hthrown. apply faithful_descend. }
  destruct (Executes_thrown Hrun) as [before [failing [w0 [Hcalls [_ Hfail]]]]].
  exists failing, w0. split; [|exact Hfail].
  rewrite Hcalls. apply in_or_app. right. left. reflexivity.
Qed.

(** The calls of a batch for a falsy value: every input of the tree, each
    with that value. *)
Lemma Performs_descend_falsy at_input c v w :
  truthy v = false ->
  content_keys_once w c = true ->
  steady_through (descend at_input c v w) w c ->
  Performs (descend at_input c v w)
    (map (fun i => at_input i v) (flattenInputs (unwrapGroups w c) [])).
Proof.
  intros Hfalsy Hkeys Hsteady.
  rewrite <- (map_map (fun i => (i, v)) (call_of at_input)).
  rewrite <- (plan_falsy w c Hkeys v Hfalsy).
  apply Performs_descend_through. exact Hsteady.
Qed.

(** C4 (as amended).  Where the value tree, at every array and object of
    the structure (as the description functions give it all through the
    batch), is absent, or is truthy and inherits no member under a key of
    the structure that it does not have itself, [reset] descends it in
    lock-step: each input is reset with the sub-value at its path, with
    no value where the path is missing from the tree.  Without a value
    every call carries no value, and every input of the group is reset
    so, in the order of the flattened inputs, where the description
    functions answer the same all through the batch.  Keys of the value
    that the structure does not have are not looked at.  And [reset] does
    not fail because of the value: what it throws, the [reset] of an input
    that it called threw, and where none of its calls throws it returns,
    whatever the value. *)
Theorem reset_lockstep g v w :
  (covers (Reached w (fst (reset g (Some {| args_value := v |}) w)))
     (structure g w) v ->
   reset g (Some {| args_value := v |}) w = lockstep_reset (structure g w) v w) /\
  (Forall (fun call => call_value call = VUndefined) (fst (reset g None w)) /\
   (content_keys_once w (structure g w) = true ->
    steady_through (reset g None w) w (structure g w) ->
    Performs (reset g None w)
      (map (fun i => reset_call i VUndefined) (flattedInputs g w)))) /\
  (forall props values w',
      resetShape (OfObject props) (VObj values) w'
      = resetShape (OfObject props)
          (VObj (filter (fun q => has_key (fst q) props) values)) w') /\
  (forall args,
      (forall e w',
          snd (reset g args w) = Thrown e w' ->
          exists i a w0,
            In (CallReset i a) (fst (reset g args w)) /\
            input_reset i a w0 = Thrown e w') /\
      ((forall call,
           In call (fst (reset g args w)) ->
           forall w0, exists w1, input_step call w0 = Done w1) ->
       exists w', snd (reset g args w) = Done w')).
Proof.
  assert (forall args e w',
             snd (reset g args w) = Thrown e w' ->
             exists i a w0,
               In (CallReset i a) (fst (reset g args w)) /\
               input_reset i a w0 = Thrown e w') as Hthrows.
  { intros args e w' Hthrown. rewrite reset_descend in *.
    destruct (descend_throws _ _ _ _ Hthrown) as [call [w0 [Hin Hfail]]].
    assert (Forall (fun call => is_reset call = true)
              (fst (descend reset_call (structure g w) (args_and_value args) w)))
      as Hresets.
    { apply (descend_Forall (fun call => is_reset call = true) (fun _ => True));
        auto. }
    rewrite Forall_forall in Hresets. specialize (Hresets call Hin).
    destruct call as [i a|i a]; [|discriminate].
    exists i, a, w0. split; [exact Hin | exact Hfail]. }
  split; [|split; [split|split]].
  - intros Hcovers. rewrite reset_descend in *.
    apply (descend_lockstep_on _ _ _ Hcovers).
    + apply Reached_start.
    + intros w' Hw'. exact Hw'.
  - rewrite reset_descend.
    apply (descend_Forall (fun call => call_value call = VUndefined)
             (fun v' => v' = VUndefined)).
    + intros v' key ->. reflexivity.
    + intros v' index ->. reflexivity.
    + intros i v' ->. reflexivity.
    + reflexivity.
  - intros Hkeys Hsteady. rewrite reset_descend in *.
    apply Performs_descend_falsy; [reflexivity | exact Hkeys | exact Hsteady].
  - apply resetShape_excess_keys.
  - intros args. split; [apply Hthrows|].
    intros Hreturns. destruct (snd (reset g args w)) as [w'|e w'] eqn:Hend.
    + exists w'. reflexivity.
    + destruct (Hthrows args e w' Hend) as [i [a [w0 [Hin Hfail]]]].
      destruct (Hreturns _ Hin w0) as [w1 Hdone]. simpl in Hdone. congruence.
Qed.

(** C7.  The getters of a group, run as the code runs them, only read:
    each returns its view in the world it started in, having asked
    description functions and read values of inputs, and made no call on
    an input.  [reset] and [confirm] change the world through the calls on
    inputs and through nothing else: the outcome is that of running the
    inputs' own [reset] (or [confirm]) one call after the other. *)
Theorem reads_pure_batches_delegate g args w :
  (ReadOnly (Error := Error) (structure_getter g w) w (structure g w) /\
   ReadOnly (Error := Error) (inputs_getter g w) w (inputs g w) /\
   ReadOnly (Error := Error) (value_getter g w) w (value g w) /\
   ReadOnly (Error := Error) (inputValue_getter g w) w (inputValue g w) /\
   ReadOnly (Error := Error) (normalizedInputValue_getter g w) w
     (normalizedInputValue g w) /\
   ReadOnly (Error := Error) (flattedInputs_getter g w) w (flattedInputs g w) /\
   ReadOnly (Error := Error) (flattenedStructure_getter g w) w
     (flattenedStructure g w)) /\
  (Executes w (fst (reset g args w)) (snd (reset g args w)) /\
   Forall (fun call => is_reset call = true) (fst (reset g args w))) /\
  (Executes w (fst (confirm g args w)) (snd (confirm g args w)) /\
   Forall (fun call => is_reset call = false) (fst (confirm g args w))).
Proof.
  split; [repeat split|split; split].
  - apply structure_getter_reads.
  - apply structure_getter_reads.
  - apply inputs_getter_reads.
  - apply inputs_getter_reads.
  - eapply ReadOnly_bind; [apply inputs_getter_reads|].
    apply getValueFromShape_run_reads.
  - eapply ReadOnly_bind; [apply inputs_getter_reads|].
    apply getValueFromShape_run_reads.
  - eapply ReadOnly_bind; [apply inputs_getter_reads|].
    apply getValueFromShape_run_reads.
  - eapply ReadOnly_bind; [apply inputs_getter_reads|].
    apply getValueFromShape_run_reads.
  - eapply ReadOnly_bind; [apply inputs_getter_reads|].
    apply getValueFromShape_run_reads.
  - eapply ReadOnly_bind; [apply inputs_getter_reads|].
    apply getValueFromShape_run_reads.
  - eapply ReadOnly_bind; [apply inputs_getter_reads|]. apply ReadOnly_ret.
  - eapply ReadOnly_bind; [apply inputs_getter_reads|]. apply ReadOnly_ret.
  - eapply ReadOnly_bind; [apply structure_getter_reads|]. apply ReadOnly_ret.
  - eapply ReadOnly_bind; [apply structure_getter_reads|]. apply ReadOnly_ret.
  - rewrite reset_descend. apply faithful_descend.
  - rewrite reset_descend.
    apply (descend_Forall (fun call => is_reset call = true) (fun _ => True));
      auto.
  - rewrite confirm_descend. apply faithful_descend.
  - rewrite confirm_descend.
    apply (descend_Forall (fun call => is_reset call = false) (fun _ => True));
      auto.
Qed.

(** C10.  Where the value handed down to a part of the structure is
    falsy, every call that [reset] and [confirm] make on the inputs of
    that part carries that same value; and every input beneath is called
    so: where the description functions beneath answer the same all
    through the batch, the calls are those on the flattened inputs of the
    part, in order, each with that value, up to a call that throws. *)
Theorem falsy_value_reaches_inputs c v w :
  truthy v = false ->
  (Forall (fun call => call_value call = v) (fst (resetShape c v w)) /\
   Forall (fun call => call_value call = v) (fst (confirmShape c v w))) /\
  (content_keys_once w c = true ->
   (steady_through (resetShape c v w) w c ->
    Performs (resetShape c v w)
      (map (fun i => reset_call i v) (flattenInputs (unwrapGroups w c) []))) /\
   (steady_through (confirmShape c v w) w c ->
    Performs (confirmShape c v w)
      (map (fun i => confirm_call i v) (flattenInputs (unwrapGroups w c) [])))).
Proof.
  intros Hfalsy.
  assert (forall at_input,
             (forall i x, call_value (at_input i x) = x) ->
             Forall (fun call => call_value call = v)
               (fst (descend at_input c v w))) as Hall.
  { intros at_input Hat.
    apply (descend_Forall (fun call => call_value call = v) (fun v' => v' = v)).
    - intros v' key ->. apply and_key_falsy. exact Hfalsy.
    - intros v' index ->. apply and_index_falsy. exact Hfalsy.
    - intros i v' ->. apply Hat.
    - reflexivity. }
  split; [split|].
  - rewrite resetShape_descend. apply Hall. reflexivity.
  - rewrite confirmShape_descend. apply Hall. reflexivity.
  - intros Hkeys. split; intros Hsteady.
    + rewrite resetShape_descend in *.
      apply Performs_descend_falsy; assumption.
    + rewrite confirmShape_descend in *.
      apply Performs_descend_falsy; assumption.
Qed.

End Descent.

(** ** The properties at work on the small application *)

Lemma demo_reset_stores : Stores PValue (ops := Demo.demo_ops) reset_call.
Proof.
  intros i x w w' Hx Hstep. simpl in Hstep. unfold Demo.demo_reset in Hstep.
  simpl in Hstep. destruct (Demo.refused x); [discriminate|].
  injection Hstep as <-. simpl. rewrite Nat.eqb_refl.
  destruct x; try reflexivity. contradiction.
Qed.

Lemma demo_confirm_stores : Stores PValue (ops := Demo.demo_ops) confirm_call.
Proof.
  intros i x w w' Hx Hstep. simpl in Hstep. unfold Demo.demo_confirm in Hstep.
  simpl in Hstep. destruct (Demo.refused x); [discriminate|].
  injection Hstep as <-. simpl. rewrite Nat.eqb_refl.
  destruct x; try reflexivity. contradiction.
Qed.

Lemma demo_reset_keeps prop : KeepsOthers prop (ops := Demo.demo_ops) reset_call.
Proof.
  intros i x w j Hne. simpl. unfold Demo.demo_reset. simpl.
  destruct (Demo.refused x); [reflexivity|].
  apply not_eq_sym, Nat.eqb_neq in Hne.
  destruct prop; simpl; rewrite Hne; reflexivity.
Qed.

Lemma demo_confirm_keeps prop : KeepsOthers prop (ops := Demo.demo_ops) confirm_call.
Proof.
  intros i x w j Hne. simpl. unfold Demo.demo_confirm. simpl.
  destruct (Demo.refused x); [reflexivity|].
  apply not_eq_sym, Nat.eqb_neq in Hne.
  destruct prop; simpl; try rewrite Hne; reflexivity.
Qed.

(** A call on an input leaves what the other inputs have confirmed. *)
Lemma demo_step_keeps call w w' j :
  input_step (ops := Demo.demo_ops) call w = Done w' ->
  call_input call <> j ->
  Demo.held j (Demo.confirmed w') = Demo.held j (Demo.confirmed w).
Proof.
  intros Hstep Hne. apply Nat.eqb_neq in Hne.
  destruct call as [i a|i a]; simpl in *.
  - unfold Demo.demo_reset in Hstep.
    destruct (Demo.refused (reset_value a)); [discriminate|].
    injection Hstep as <-. simpl. rewrite Hne. reflexivity.
  - unfold Demo.demo_confirm in Hstep.
    destruct (Demo.refused (confirm_value a)); [discriminate|].
    injection Hstep as <-. simpl. rewrite Hne. reflexivity.
Qed.

(** The description [Demo.grow] reads input 0: it answers the same all
    through a batch that makes no call on input 0. *)
Lemma demo_grow_through w calls w' :
  Forall (fun call => call_input call <> 0) calls ->
  Reached (ops := Demo.demo_ops) w calls w' ->
  Demo.grow w' = Demo.grow w.
Proof.
  intros Hcalls [before [after [-> Hrun]]].
  apply Forall_app in Hcalls. destruct Hcalls as [Hbefore _].
  unfold Demo.grow.
  assert (Demo.held 0 (Demo.confirmed w') = Demo.held 0 (Demo.confirmed w))
    as ->; [|reflexivity].
  remember (Done w') as o eqn:Ho.
  induction Hrun as [w|w call w1 calls o Hstep Hrest IH|w call e w1 Hstep].
  - injection Ho as ->. reflexivity.
  - inversion Hbefore as [|x l Hcall Hcalls]; subst.
    rewrite (IH Hcalls eq_refl). exact (demo_step_keeps call w Hstep Hcall).
  - discriminate.
Qed.

Lemma demo_growing_steady (run : list Call * Outcome Demo.World Demo.Error) w :
  Forall (fun call => call_input call <> 0) (fst run) ->
  steady_through (ops := Demo.demo_ops) run w (OfGroup 5 (Thunk Demo.grow)).
Proof.
  intros Hcalls. unfold steady_through. cbn [steady_on]. split.
  - intros w' Hw'. exact (demo_grow_through Hcalls Hw').
  - unfold Demo.grow. destruct (truthy _); simpl; auto.
Qed.

Ltac not_on_input_0 :=
  vm_compute; repeat (constructor; [discriminate|]); constructor.

(** Two different trees can flatten to the same list: the description of
    [Demo.reshaped] answers with an array in one state and with an object
    in the other, and [flattedInputs] is the same list both times. *)
Example different_trees_same_flattedInputs :
  structure Demo.reshaped Demo.switched_on <> structure Demo.reshaped Demo.empty /\
  flattedInputs Demo.reshaped Demo.switched_on
  = flattedInputs Demo.reshaped Demo.empty.
Proof.
  split.
  - discriminate.
  - reflexivity.
Qed.

Example demo_growing_differs :
  flattedInputs Demo.growing Demo.switched_on
  <> flattedInputs Demo.growing Demo.empty.
Proof. discriminate. Qed.

Lemma confirm_never_requests_next_witness :
  Forall (fun call => confirm_without_next call = true)
    (fst (confirm Demo.outer (Some {| args_value := VUndefined |}) Demo.empty)) /\
  Visits (confirm Demo.outer (Some {| args_value := VUndefined |}) Demo.empty)
    (flattedInputs Demo.outer Demo.empty).
Proof.
  destruct (confirm_never_requests_next (ops := Demo.demo_ops) Demo.outer
              (Some {| args_value := VUndefined |}) Demo.empty) as [Hcalls Hvisits].
  split.
  - exact Hcalls.
  - apply Hvisits; [simpl; repeat split | reflexivity].
Defined.

Lemma flattedInputs_exact_witness :
  In 2 (flattedInputs Demo.outer Demo.empty)
  <-> Reachable Demo.empty (structure Demo.outer Demo.empty) 2.
Proof.
  apply (flattedInputs_exact Demo.outer Demo.empty). reflexivity.
Defined.

Lemma reset_lockstep_witness :
  reset Demo.around (Some {| args_value := Demo.first_letter |}) Demo.switched_on
  = lockstep_reset (structure Demo.around Demo.switched_on) Demo.first_letter
      Demo.switched_on /\
  Performs (reset Demo.around None Demo.switched_on)
    (map (fun i => reset_call i VUndefined)
       (flattedInputs Demo.around Demo.switched_on)) /\
  exists w',
    snd (reset Demo.around (Some {| args_value := Demo.first_letter |})
           Demo.switched_on)
    = Done w'.
Proof.
  destruct (reset_lockstep (ops := Demo.demo_ops) Demo.around Demo.first_letter
              Demo.switched_on) as [Hstep [[_ Hnone] [_ Hends]]].
  split; [|split].
  - apply Hstep. cbn [structure Demo.around _inputs covers].
    split; [reflexivity|]. split; [|exact I].
    intros w Hw. rewrite (demo_grow_through (calls := fst (reset Demo.around
      (Some {| args_value := Demo.first_letter |}) Demo.switched_on))
      (w := Demo.switched_on)); [|not_on_input_0|exact Hw].
    simpl. repeat split.
  - apply Hnone; [reflexivity|].
    split; [|exact I]. apply demo_growing_steady. not_on_input_0.
  - apply (Hends (Some {| args_value := Demo.first_letter |})).
    intros call Hcall w0.
    destruct Hcall as [<-|[<-|[]]]; eexists; reflexivity.
Defined.

(** C4, as first worded, fails.  With [null] where the structure has the
    object [b], the path [b.c] is missing from the value tree, and input 2
    is reset with [null], not with no value.  And over a structure with
    the key [toString], with the empty object for value, the path
    [toString] is missing from the value tree, and input 1 is reset with
    the function that every object inherits under that name, not with no
    value. *)
Lemma reset_out_of_step :
  (sub_value (sub_value Demo.null_at_b "b") "c" = VUndefined /\
   fst (reset Demo.form (Some {| args_value := Demo.null_at_b |}) Demo.empty)
   = [CallReset 1 {| reset_value := VUndefined |};
      CallReset 2 {| reset_value := VNull |}] /\
   reset Demo.form (Some {| args_value := Demo.null_at_b |}) Demo.empty
   <> lockstep_reset (structure Demo.form Demo.empty) Demo.null_at_b Demo.empty) /\
  (sub_value (VObj []) "toString" = VUndefined /\
   fst (reset Demo.named_like_a_member (Some {| args_value := VObj [] |})
          Demo.empty)
   = [CallReset 1 {| reset_value := VFun "Object.prototype.toString" |};
      CallReset 2 {| reset_value := VUndefined |}] /\
   reset Demo.named_like_a_member (Some {| args_value := VObj [] |}) Demo.empty
   <> lockstep_reset (structure Demo.named_like_a_member Demo.empty) (VObj [])
        Demo.empty).
Proof.
  split; (split; [reflexivity|]; split; [reflexivity|]; discriminate).
Qed.

Lemma batch_stops_at_throw_witness :
  (exists before failing w0,
      fst (reset Demo.form (Some {| args_value := Demo.refused_at_a |}) Demo.empty)
      = before ++ [failing] /\
      Executes Demo.empty before (Done w0) /\
      input_step failing w0 = Thrown "refused" Demo.empty) /\
  Visits (reset Demo.form (Some {| args_value := Demo.refused_at_a |}) Demo.empty)
    (flattedInputs Demo.form Demo.empty).
Proof.
  destruct (batch_stops_at_throw (ops := Demo.demo_ops) Demo.form
              (Some {| args_value := Demo.refused_at_a |}) Demo.empty)
    as [[Hthrown _] [_ Hvisits]].
  split.
  - destruct (Hthrown "refused" Demo.empty eq_refl)
      as [before [failing [w0 [Hcalls [Hbefore Hfail]]]]].
    exists before, failing, w0. repeat split; assumption.
  - apply Hvisits; [simpl; repeat split | reflexivity].
Defined.

Lemma unwrapGroups_idempotent_witness :
  of_shape (unwrapGroups Demo.empty (structure Demo.form Demo.empty))
  = structure Demo.form Demo.empty.
Proof.
  apply (unwrapGroups_idempotent Demo.empty (structure Demo.form Demo.empty));
    reflexivity.
Defined.

Lemma falsy_value_reaches_inputs_witness :
  (Forall (fun call => call_value call = VNull)
     (fst (resetShape (OfObject [("c", OfInput 3); ("d", OfGroup 5 (Thunk Demo.grow))])
             VNull Demo.switched_on)) /\
   Forall (fun call => call_value call = VNull)
     (fst (confirmShape
             (OfObject [("c", OfInput 3); ("d", OfGroup 5 (Thunk Demo.grow))])
             VNull Demo.switched_on))) /\
  Performs (resetShape (OfObject [("c", OfInput 3); ("d", OfGroup 5 (Thunk Demo.grow))])
              VNull Demo.switched_on)
    [reset_call 3 VNull; reset_call 1 VNull; reset_call 2 VNull] /\
  Performs (confirmShape
              (OfObject [("c", OfInput 3); ("d", OfGroup 5 (Thunk Demo.grow))])
              VNull Demo.switched_on)
    [confirm_call 3 VNull; confirm_call 1 VNull; confirm_call 2 VNull].
Proof.
  destruct (falsy_value_reaches_inputs (ops := Demo.demo_ops)
              (OfObject [("c", OfInput 3); ("d", OfGroup 5 (Thunk Demo.grow))])
              VNull Demo.switched_on eq_refl) as [Hcalls Hall].
  destruct (Hall eq_refl) as [Hreset Hconfirm].
  split; [exact Hcalls|]. split.
  - apply Hreset. split; [exact I|]. split; [|exact I].
    apply demo_growing_steady. not_on_input_0.
  - apply Hconfirm. split; [exact I|]. split; [|exact I].
    apply demo_growing_steady. not_on_input_0.
Defined.

Example demo_throw_stops :
  reset Demo.form (Some {| args_value := Demo.refused_at_a |}) Demo.empty
  = ([CallReset 1 {| reset_value := VStr "!" |}], Thrown "refused" Demo.empty).
Proof. reflexivity. Qed.

Example demo_null_calls :
  fst (resetShape (OfObject [("c", OfInput 2); ("d", OfArray [OfInput 3])])
         VNull Demo.empty)
  = [CallReset 2 {| reset_value := VNull |}; CallReset 3 {| reset_value := VNull |}].
Proof. reflexivity. Qed.

Example demo_empty_object :
  value {| group_id := 9; _inputs := Constant (OfObject []) |} Demo.empty = VBare []
  /\ value {| group_id := 9; _inputs := Constant (OfArray []) |} Demo.empty = VArr []
  /\ flattedInputs {| group_id := 9; _inputs := Constant (OfObject []) |} Demo.empty = [].
Proof. repeat split. Qed.

Example demo_value :
  value Demo.form Demo.switched_on
  = VBare [("a", VStr EmptyString); ("b", VBare [("c", VStr EmptyString)])].
Proof. reflexivity. Qed.

Example demo_flatted : flattedInputs Demo.outer Demo.empty = [1; 2; 5].
Proof. reflexivity. Qed.

Example demo_flattened_structure :
  List.length (flattenedStructure Demo.outer Demo.empty) = 2.
Proof. reflexivity. Qed.

Example demo_reset_partial :
  fst (reset Demo.form
         (Some {| args_value := VObj [("b", VObj [("c", VStr "X")])] |}) Demo.empty)
  = [CallReset 1 {| reset_value := VUndefined |};
     CallReset 2 {| reset_value := VStr "X" |}].
Proof. reflexivity. Qed.

Example demo_index_key : index_key 12 = "12".
Proof. reflexivity. Qed.

Example demo_get_index : get_index (VArr [VNum 4; VNum 5]) 1 = VNum 5.
Proof. reflexivity. Qed.

Example demo_index_of_object : get_index (VObj [("0", VNum 7)]) 0 = VNum 7.
Proof. reflexivity. Qed.

Example demo_key_of_array :
  get_key (VArr [VNum 4; VNum 5]) "1" = VNum 5
  /\ get_key (VArr [VNum 4; VNum 5]) "01" = VUndefined
  /\ get_key (VArr [VNum 4; VNum 5]) "length" = VNum 2
  /\ get_key (VStr "abc") "1" = VStr "b".
Proof. repeat split. Qed.

(** Members found along the prototype chain, and none on an object made
    by [Object.create(null)]. *)
Example demo_inherited_members :
  get_key (VObj []) "toString" = VFun "Object.prototype.toString"
  /\ get_key (VArr []) "map" = VFun "Array.prototype.map"
  /\ get_key (VStr "x") "trim" = VFun "String.prototype.trim"
  /\ get_key (VArr []) "hasOwnProperty" = VFun "Object.prototype.hasOwnProperty"
  /\ get_key (VObj [("toString", VNum 1)]) "toString" = VNum 1
  /\ get_key (VBare []) "toString" = VUndefined.
Proof. repeat split. Qed.

Example demo_and_key :
  and_key VNull "c" = VNull
  /\ and_key VUndefined "c" = VUndefined
  /\ and_key (VStr EmptyString) "length" = VStr EmptyString
  /\ and_key (VObj [("c", VNum 1)]) "c" = VNum 1
  /\ and_key (VObj [("c", VNum 1)]) "d" = VUndefined.
Proof. repeat split. Qed.

Example demo_reset_array :
  fst (resetShape (OfArray [OfInput 1; OfInput 2]) (VArr [VStr "x"]) Demo.empty)
  = [CallReset 1 {| reset_value := VStr "x" |};
     CallReset 2 {| reset_value := VUndefined |}].
Proof. reflexivity. Qed.

Example demo_reset_excess_key :
  fst (reset Demo.form
         (Some {| args_value := VObj [("z", VNum 1); ("a", VStr "A")] |}) Demo.empty)
  = [CallReset 1 {| reset_value := VStr "A" |};
     CallReset 2 {| reset_value := VUndefined |}].
Proof. reflexivity. Qed.

Example demo_confirm_calls :
  fst (confirm Demo.outer None Demo.empty)
  = [CallConfirm 1 {| confirm_value := VUndefined; next := None |};
     CallConfirm 2 {| confirm_value := VUndefined; next := None |};
     CallConfirm 5 {| confirm_value := VUndefined; next := None |}].
Proof. reflexivity. Qed.

(** The getter of [value] asks the description and reads the inputs;
    [reset], run the same way, calls them. *)
Example demo_value_run :
  fst (value_getter Demo.growing Demo.switched_on)
  = [AskDescription 5; ReadInput PValue 1; ReadInput PValue 2]
  /\ fst (of_action (reset Demo.growing None) Demo.switched_on)
     = [CallInput (reset_call 1 VUndefined); CallInput (reset_call 2 VUndefined)].
Proof. split; reflexivity. Qed.

Example demo_reset_not_read_only a :
  ~ ReadOnly (of_action (reset Demo.growing None) Demo.switched_on)
      Demo.switched_on a.
Proof.
  apply ReadOnly_no_call with (call := reset_call 1 VUndefined).
  left. reflexivity.
Qed.

(** ** The further properties at work on the small application *)

Lemma flattedInputs_from_flattenedStructure_witness :
  flattedInputs Demo.outer Demo.empty
  = flat_map (expand Demo.empty) (flattenedStructure Demo.outer Demo.empty).
Proof.
  apply (flattedInputs_from_flattenedStructure Demo.outer Demo.empty).
  reflexivity.
Defined.

Lemma value_at_key_witness :
  get_key (value Demo.form Demo.filled) "a" = VStr "A" /\
  get_key (value Demo.form Demo.filled) "z" = VUndefined.
Proof.
  destruct (value_at_key (ops := Demo.demo_ops) Demo.form Demo.filled
              (props := [("a", OfInput 1); ("b", OfObject [("c", OfInput 2)])])
              PValue "a" eq_refl eq_refl) as [Hpresent _].
  destruct (value_at_key (ops := Demo.demo_ops) Demo.form Demo.filled
              (props := [("a", OfInput 1); ("b", OfObject [("c", OfInput 2)])])
              PValue "z" eq_refl eq_refl) as [_ Habsent].
  split.
  - apply (Hpresent (OfInput 1)). left. reflexivity.
  - apply Habsent. reflexivity.
Defined.

Lemma value_at_index_witness :
  get_index (value Demo.inner Demo.filled) 1 = VStr "B" /\
  get_index (value Demo.inner Demo.filled) 2 = VUndefined.
Proof.
  split.
  - apply (value_at_index (ops := Demo.demo_ops) Demo.inner Demo.filled
             (items := [OfInput 1; OfInput 2]) PValue 1 eq_refl).
  - apply (value_at_index (ops := Demo.demo_ops) Demo.inner Demo.filled
             (items := [OfInput 1; OfInput 2]) PValue 2 eq_refl).
Defined.

Lemma value_depends_on_inputs_witness :
  value Demo.form Demo.filled = value Demo.form Demo.filled_and_more.
Proof.
  apply (value_depends_on_inputs (ops := Demo.demo_ops) Demo.form
           Demo.filled Demo.filled_and_more PValue).
  - reflexivity.
  - intros i [<-|[<-|[]]]; reflexivity.
Defined.

Lemma batch_follows_plan_witness :
  Performs (reset Demo.around (Some {| args_value := Demo.letters |})
              Demo.switched_on)
    (map (call_of reset_call)
       (plan Demo.switched_on (structure Demo.around Demo.switched_on)
          Demo.letters)) /\
  Performs (confirm Demo.around (Some {| args_value := Demo.letters |})
              Demo.switched_on)
    (map (call_of confirm_call)
       (plan Demo.switched_on (structure Demo.around Demo.switched_on)
          Demo.letters)).
Proof.
  destruct (batch_follows_plan (ops := Demo.demo_ops) Demo.around
              (Some {| args_value := Demo.letters |}) Demo.switched_on)
    as [Hreset Hconfirm].
  split.
  - apply Hreset. split; [|exact I]. apply demo_growing_steady. not_on_input_0.
  - apply Hconfirm. split; [|exact I]. apply demo_growing_steady. not_on_input_0.
Defined.

Lemma reset_restores_value_witness :
  value Demo.around
    (outcome_world
       (snd (reset Demo.around
               (Some {| args_value := value Demo.around Demo.on_and_filled |})
               Demo.switched_on)))
  = value Demo.around Demo.on_and_filled.
Proof.
  apply (reset_restores_value (ops := Demo.demo_ops) Demo.around
           Demo.switched_on Demo.on_and_filled
           (calls := fst (reset Demo.around
                            (Some {| args_value :=
                                       value Demo.around Demo.on_and_filled |})
                            Demo.switched_on))).
  - split; [|exact I]. apply demo_growing_steady. not_on_input_0.
  - reflexivity.
  - reflexivity.
  - intros i [<-|[<-|[]]]; discriminate.
  - exact demo_reset_stores.
  - exact (demo_reset_keeps PValue).
  - reflexivity.
Defined.

Lemma confirm_restores_value_witness :
  value Demo.around
    (outcome_world
       (snd (confirm Demo.around
               (Some {| args_value := value Demo.around Demo.on_and_filled |})
               Demo.switched_on)))
  = value Demo.around Demo.on_and_filled.
Proof.
  apply (confirm_restores_value (ops := Demo.demo_ops) Demo.around
           Demo.switched_on Demo.on_and_filled
           (calls := fst (confirm Demo.around
                            (Some {| args_value :=
                                       value Demo.around Demo.on_and_filled |})
                            Demo.switched_on))).
  - split; [|exact I]. apply demo_growing_steady. not_on_input_0.
  - reflexivity.
  - reflexivity.
  - intros i [<-|[<-|[]]]; discriminate.
  - exact demo_confirm_stores.
  - exact (demo_confirm_keeps PValue).
  - reflexivity.
Defined.

Lemma batch_leaves_other_inputs_witness :
  input_get PValue 0
    (outcome_world
       (snd (reset Demo.around (Some {| args_value := Demo.letters |})
               Demo.switched_on)))
  = VStr "on" /\
  input_get PValue 0
    (outcome_world
       (snd (confirm Demo.around (Some {| args_value := Demo.first_letter |})
               Demo.switched_on)))
  = VStr "on".
Proof.
  assert (~ In 0 (flattedInputs Demo.around Demo.switched_on)) as Hout.
  { intros [H|[H|[]]]; discriminate. }
  split.
  - apply (proj1 (@batch_leaves_other_inputs Demo.World Demo.Error
                    Demo.demo_ops _ Demo.around
                    (Some {| args_value := Demo.letters |})
                    Demo.switched_on PValue 0 eq_refl Hout)).
    + exact (demo_reset_keeps PValue).
    + split; [|exact I]. apply demo_growing_steady. not_on_input_0.
  - apply (proj2 (@batch_leaves_other_inputs Demo.World Demo.Error
                    Demo.demo_ops _ Demo.around
                    (Some {| args_value := Demo.first_letter |})
                    Demo.switched_on PValue 0 eq_refl Hout)).
    + exact (demo_confirm_keeps PValue).
    + split; [|exact I]. apply demo_growing_steady. not_on_input_0.
Defined.

Example demo_restore_calls :
  reset Demo.form (Some {| args_value := value Demo.form Demo.filled |}) Demo.empty
  = ([CallReset 1 {| reset_value := VStr "A" |};
      CallReset 2 {| reset_value := VStr "B" |}],
     Done {| Demo.confirmed := [(2, VStr "B"); (1, VStr "A")];
             Demo.typed := [(2, VStr "B"); (1, VStr "A")] |}).
Proof. reflexivity. Qed.

(** A batch over a description function: the calls follow what the
    function answers while input 0 is on. *)
Example demo_around_calls :
  fst (confirm Demo.around (Some {| args_value := Demo.first_letter |})
         Demo.switched_on)
  = [confirm_call 1 (VStr "A"); confirm_call 2 VUndefined].
Proof. reflexivity. Qed.

Example demo_array_beyond_end :
  fst (resetShape (OfArray [OfInput 1; OfInput 2; OfInput 3])
         (VArr [VStr "x"; VStr "y"]) Demo.empty)
  = [CallReset 1 {| reset_value := VStr "x" |};
     CallReset 2 {| reset_value := VStr "y" |};
     CallReset 3 {| reset_value := VUndefined |}].
Proof. reflexivity. Qed.

(** Over [{toString: Leaf 1, a: Leaf 2}], an ordinary object without keys
    hands input 1 the function it inherits; an object made by
    [Object.create(null)] hands it no value. *)
Example demo_object_by_key :
  fst (resetShape (structure Demo.named_like_a_member Demo.empty) (VObj [])
         Demo.empty)
  = [reset_call 1 (VFun "Object.prototype.toString"); reset_call 2 VUndefined]
  /\ fst (resetShape (structure Demo.named_like_a_member Demo.empty) (VBare [])
            Demo.empty)
     = [reset_call 1 VUndefined; reset_call 2 VUndefined].
Proof. split; reflexivity. Qed.

Lemma flattenedStructure_without_groups_witness :
  flattenedStructure Demo.form Demo.empty
  = map (@ItemInput Demo.World) (flattedInputs Demo.form Demo.empty).
Proof.
  apply (flattenedStructure_without_groups Demo.form Demo.empty); reflexivity.
Defined.


Lemma batch_array_from_string_witness :
  Performs (resetShape (OfArray [OfInput 1; OfInput 2; OfInput 3]) (VStr "ab")
              Demo.empty)
    [reset_call 1 (VStr "a"); reset_call 2 (VStr "b"); reset_call 3 VUndefined].
Proof.
  apply (@batch_array_from_string Demo.World Demo.Error Demo.demo_ops _
           [1; 2; 3] "ab" Demo.empty).
  discriminate.
Defined.
